(* ===== verification/_CoqProject ===== *)
-Q . S2P
Prelude.v
Utf8.v
Iterators.v
Counters.v
CharCount.v
Utf8Fast.v
Config.v
Format.v
Runner.v
Main.v
Tests.v
