(* ===== verification/Prelude.v ===== *)
(** * A verification development for [word_count], a [wc]-style counter

    ** The program

    [src/src/lib.rs] is the whole library of the program; the binary's
    [main] (not in the repository's [src/]) passes the command line to it.
    It has three parts:
    - the configuration resolver: [enum Flag], [Flag::from_str],
      [struct Config] and [Config::build] (lines 5-77) turn the argument
      vector into a mode and an input (a file path or standard input);
    - the counters (lines 102-116): [get_size_in_bytes] ([str::len]),
      [get_num_lines] ([str::lines().count()]), [get_num_words]
      ([str::split_ascii_whitespace().count()]) and [get_num_char]
      ([str::chars().count()]);
    - the runner [run] (lines 79-100): it reads the whole input as a
      [String] ([read_to_string], which validates UTF-8), calls the four
      counters and prints one line with [println!];
    - the unit tests (lines 118-151), four [#[test]] functions on the
      counters.
    The parts interact by value only: [main] hands the arguments to
    [build], [build] hands a [Config] to [run], and [run] hands the input
    string to the counters; [main] turns an error of either into a
    diagnostic and an exit status.

    ** The development

    Rust strings are byte sequences ([bytes = list byte], [Prelude]).  Two
    kinds of definitions appear.  The code of [lib.rs] is translated line
    by line: [Config.Flag], [Config.Flag.from_str], [Config.Config],
    [Config.build], [Runner.run] and the four counters of [Counters]; the
    binary's [Main.main] is modelled from the specification, and the unit
    tests are [Tests.Tests].  The routines
    of Rust's [core] and [std] that this code calls ([str::lines],
    [split_ascii_whitespace], [chars], the UTF-8 check of
    [read_to_string], [Display for usize], the operating system) are not
    code of the repository: they are modelled from their own sources, as
    the meaning the translated code is proved against, in these files:
    - [Prelude]: byte strings, Rust's [Result] with [let?], [unwrap],
      [count_if] ([iter().filter().count()]), the hint databases [wc] and
      [wc_rw] and the tactics [case_tests] and [div_lia].
    - [Utf8] (Module [Utf8]): [core::str::validations] -- the validation
      loop [run_utf8_validation] ([validate_from]) of [str::from_utf8]
      without its ASCII fast path (the reference of [Utf8Fast]),
      the decoder [next_code_point] behind [chars()], with its [u32] shifts
      kept at width ([shl32]), and [count_chars], the count of
      non-continuation bytes that [Chars::count] returns.  The encoder
      [encode_utf8_raw] of [char] defines UTF-8 ([well_formed]), which the
      validator decides ([well_formed_decision]).  Theorems: the validator
      accepts exactly the well-formed inputs, its error reports a valid
      prefix, decoding inverts encoding.
    - [Iterators] (Module [Iterators]): the [core] iterators the
      counters call ([split_by], [split_ascii_whitespace],
      [split_inclusive], [strip_suffix], [lines_map], [lines]) and the
      one-pass word counter [count_runs] of [wc], with their lemmas: the
      lengths of the splits in closed form and the pieces of a UTF-8 encoding against a byte predicate that holds
      of ASCII bytes only.
    - [Counters] (Module [Counters]): the four counters of [lib.rs].
      Theorems: the line count in closed form, the word count equal to
      [wc]'s one-pass state machine ([count_words]); the bounds of every
      count by the byte size (so no [usize] overflow) and, on a [&str],
      of the line and word counts by the character count; the counts of
      a text ending with a line feed followed by another add up; the
      encoding of a sequence of scalar values is valid UTF-8 and its
      character count is the length of the sequence.
    - [CharCount] (Module [CharCount]): [core::str::count], the
      word-at-a-time [count_chars] that [Chars::count] runs on strings of
      32 bytes or more: [align_to::<usize>()] (its head length, fixed by
      the string's address, is a parameter), per-lane bits set by
      [contains_non_continuation_byte], chunks of [CHUNK_SIZE] words added
      lane by lane, [sum_bytes_in_usize], on 64-bit little-endian words
      with their wrap-around.  Theorem: for every head length it returns
      [get_num_char], no lane overflows and no addition wraps.
    - [Utf8Fast] (Module [Utf8Fast]): [run_utf8_validation] as [core]
      writes it, by index, with the ASCII fast path that reads two
      words at a time from an aligned index ([contains_nonascii]) and
      the [align_offset] of the bytes as a parameter.  Theorem: for
      every alignment it returns what the byte loop returns, the error
      and its [valid_up_to] included.
    - [Config]: [Flag], [Flag.from_str], [Config] and [build]; the
      specification's contract as the inductive relation [resolves].
      Theorems: on arguments that are not empty, [build] returns exactly
      the outcome [resolves] allows; its three errors, each from its
      cause; the two shapes of the configurations it returns.  On an
      empty argument the code departs from the specification
      ([Flag::from_str("")] is [Some(Default)]): this is a finding of
      the manifest, outside the contract [build] is proved against.
    - [Format] (Module [Fmt]): [Display for usize], i.e. [fmt_u64] of
      [core::fmt::num] with its table [DEC_DIGITS_LUT] and its
      four-digits-per-step loop ([fmt_loop]).  Theorem: [fmt_u64 n] is
      the one canonical decimal representation of [n] (digits only, no
      leading zero, reading back to [n]).
    - [Runner]: [run] in a state-and-error monad [IO] over the interface
      [Os] (a [Class]: read standard input, read a file, write standard
      output, and the alignment the allocator gives the buffer a read
      fills) with the laws [OsLaws] it relies on; [read_to_string] is a
      read followed by UTF-8 validation ([utf8_or_invalid], which uses
      [Utf8Fast.from_utf8_fast] at the buffer's alignment); [println!]
      appends the line and a line feed, each count printed by
      [Fmt.fmt_u64].  [World] is a concrete instance.  Theorems: on
      the encoding of a character sequence [run] prints exactly the line
      of the specification's table ([report]); after a read it succeeds
      exactly on UTF-8, whatever the alignment of the buffer; its line is
      made of decimal representations that read back to the counts; a
      failed read or invalid UTF-8 is its error; an error prints
      nothing.
    - [Main]: the binary's [main], which is not under [src/] and is
      modelled from the specification (sections 6 and 7): [build], then
      [run]; an error of either is a diagnostic line on standard error
      (the interface [Stderr], an extension of [Os]) and exit status 1.
      [Process] adds standard error to [World].  Theorems: every
      invocation ends in one of three ways, each with its final state
      (the report of a UTF-8 input on standard output and status 0, a
      message of [build] on standard error before any I/O, or the text
      of a read error on standard error with standard output
      untouched); the end-to-end output on arguments that resolve by the
      specification's contract; the errors of the contract and of the
      read end the process with their message.
    - [Tests] (Module [Tests]): the four unit tests of [lib.rs], each a
      [bool] that [assert_eq!] makes [false] on failure, with the string
      literals of the source written out byte by byte.  They are
      definitions only: each evaluates to [true], which states nothing
      beyond four inputs.

    ** Bounds and fuel

    [Utf8.chars] runs the decoder with [length v] steps of fuel: every step
    consumes at least one byte ([next_code_point_length]), and more fuel
    gives the same result ([chars_fuel_stable]).  [Fmt.fmt_loop] runs with
    [S (log2 n)] steps: each step divides [n] by [10000] and so lowers its
    [log2] ([log2_div_10000]); [fmt_loop_spec] shows that with more than
    [log2 n] steps the loop stops at [n < 10000].  Counts are [nat] (and
    [N] when printed); the words of [CharCount] are [Z] below [2^64].
    The theorem [counts_le_size] bounds the counts by the byte length,
    which Rust keeps below [isize::MAX], so the [usize] results never
    wrap, and [fmt_u64] is only applied below [2^64].
    [CharCount.chunks_fuel] is given as much fuel as the slice has
    elements, which is enough since each step takes at least one.  The
    loops of [Utf8Fast] run with [length v] steps: each iteration of the
    outer loop advances the index ([fast_path_advances]), each of the
    skipping loops advances it or stops, and [validate_loop_spec] is
    proved for any fuel of at least [length v - index].

    ** Not modelled, and the plan

    A failing write of [println!] (a panic) is not modelled: writes
    always succeed.  The lines [1-4] of [lib.rs] are [use] declarations,
    which have no behaviour.
    [read_to_string]'s incremental buffer growth and the [Interrupted]
    retries are below the [Os] interface: a read returns the whole input
    or an error.  The program keeps no state from one invocation to the
    next and the functions of [lib.rs] none between calls, so its
    invariants are those of the loops it runs: the lanes of [CharCount]
    and the ASCII spans of [Utf8Fast], which their theorems carry. *)

From stdpp Require Import base list decidable.
From Stdlib Require Import Strings.Byte NArith ZArith Lia.
From Stdlib Require Strings.String.
Export String.StringSyntax.

(** ** Byte strings

    A Rust [String] or [&str] is a sequence of bytes (that the type system
    keeps valid UTF-8); we model it as a list of [byte]. *)

Abbreviation bytes := (list byte).

(** [bs "..."] is the byte string of a source literal (UTF-8 encoded, as
    Rust stores it). *)
Definition bs (s : String.string) : bytes := String.list_byte_of_string s.
Arguments bs s%_string_scope.

(** The unsigned value of a byte ([b as u32] in Rust). *)
Definition u8 (b : byte) : N := Byte.to_N b.

#[export] Instance byte_eq_dec : EqDecision byte := Byte.byte_eq_dec.

(** ** Rust's [Result]

    [result T E] with [Ok] and [Err]; [let? x := c in k] is Rust's [?]
    operator: it returns the error of [c] at once. *)

Inductive result (T E : Type) : Type :=
| Ok (t : T)
| Err (e : E).
Arguments Ok {T E} t.
Arguments Err {T E} e.

Declare Scope result_scope.
Delimit Scope result_scope with result.
Notation "'let?' x ':=' c 'in' k" :=
  (match c with Ok x => k | Err e => Err e end)
  (at level 10, x name, c at level 100, k at level 200) : result_scope.

(** [Option::unwrap]: it takes a proof that the option is [Some], so a
    panic is ruled out where it is called. *)
Lemma not_is_Some_None {A} : ~ is_Some (@None A).
Proof. by intros [x Hx]. Qed.

Definition unwrap {A} (o : option A) : is_Some o -> A :=
  match o return is_Some o -> A with
  | Some x => fun _ => x
  | None => fun H => False_rect A (not_is_Some_None H)
  end.

(** ** Counting elements

    [count_if p l] is [l.iter().filter(p).count()]. *)

Fixpoint count_if {A} (p : A -> bool) (l : list A) : nat :=
  match l with
  | [] => 0
  | x :: l' => (if p x then 1 else 0) + count_if p l'
  end.

Create HintDb wc discriminated.
Create Rewrite HintDb wc_rw.

Section count_if.
Context {A : Type} (p : A -> bool).

Lemma count_if_app (l1 l2 : list A) :
    count_if p (l1 ++ l2) = count_if p l1 + count_if p l2.
  Proof. induction l1 as [|x l1 IH]; simpl; [done|]. rewrite IH. lia. Qed.

Lemma count_if_le_length (l : list A) : count_if p l <= length l.
  Proof. induction l as [|x l IH]; simpl; [lia|]. destruct (p x); lia. Qed.

End count_if.

#[export] Hint Rewrite @count_if_app : wc_rw.
#[export] Hint Resolve count_if_le_length : wc.

(** ** Tactics *)

(** Case on every [decide] and boolean test in the goal. *)
Ltac case_tests :=
  repeat (case_decide || case_match); simplify_eq/=.

Example bs_ex : bs "-l" = [Byte.x2d; Byte.x6c].
Proof. reflexivity. Qed.

(** Linear arithmetic with division and remainder by constants ([lia]
    alone does not case on the Euclidean equations). *)
Ltac div_lia := zify; Z.to_euclidean_division_equations; lia.
