(* ===== verification/Utf8.v ===== *)
(** * UTF-8: the byte-level semantics of Rust strings

    A Rust [&str] is a byte sequence that is valid UTF-8.  This file
    models the routines of Rust's [core] that the program runs on every
    input: the validation of [str::from_utf8] (reached through
    [read_to_string] in [run]), the decoder behind [str::chars]
    ([next_code_point]), and the character count that [get_num_char]
    uses ([Chars::count], which counts non-continuation bytes).  The
    encoder [encode_utf8_raw] of [char] defines which byte sequences are
    UTF-8 (the abstract specification), and the theorems relate every
    routine to it. *)

From stdpp Require Import base list decidable.
From Stdlib Require Import Strings.Byte NArith ZArith Lia.
From S2P Require Import Prelude.

Local Open Scope N_scope.

Module Utf8.

(** ** Bytes as machine integers *)

(** [n as u8]: truncation to the low 8 bits. *)
Definition byte_of_N (n : N) : byte :=
  match Byte.of_N (n mod 256) with Some b => b | None => Byte.x00 end.

(** [byte as i8]: the two's-complement reading of a byte. *)
Definition as_i8 (b : byte) : Z :=
  if u8 b <? 128 then Z.of_N (u8 b) else (Z.of_N (u8 b) - 256)%Z.

(** [core::str::validations::utf8_is_cont_byte]: [(byte as i8) < -64]. *)
Definition utf8_is_cont_byte (b : byte) : bool := (as_i8 b <? -64)%Z.

(** [u8::is_ascii_whitespace]:
    [matches!( *self, b'\t' | b'\n' | b'\x0C' | b'\r' | b' ')]. *)
Definition is_ascii_whitespace (b : byte) : bool :=
  match b with
  | Byte.x09 | Byte.x0a | Byte.x0c | Byte.x0d | Byte.x20 => true
  | _ => false
  end.

(** [core::str::validations::utf8_char_width]: the table [UTF8_CHAR_WIDTH]
    read by ranges of the first byte. *)
Definition utf8_char_width (b : byte) : nat :=
  let v := u8 b in
  if v <? 0x80 then 1%nat
  else if v <? 0xC2 then 0%nat
  else if v <? 0xE0 then 2%nat
  else if v <? 0xF0 then 3%nat
  else if v <? 0xF5 then 4%nat
  else 0%nat.

(** [u32 << k]: a left shift that drops the bits above bit 31. *)
Definition shl32 (x k : N) : N := N.land (N.shiftl x k) (N.ones 32).

(** ** The encoder: what UTF-8 is *)

(** A Rust [char] is a Unicode scalar value. *)
Definition is_scalar (c : N) : bool :=
  (c <? 0xD800) || ((0xDFFF <? c) && (c <? 0x110000)).

(** [core::char::len_utf8]. *)
Definition len_utf8 (code : N) : nat :=
  if code <? 0x80 then 1%nat
  else if code <? 0x800 then 2%nat
  else if code <? 0x10000 then 3%nat
  else 4%nat.

Definition TAG_CONT : N := 0x80.
Definition TAG_TWO_B : N := 0xC0.
Definition TAG_THREE_B : N := 0xE0.
Definition TAG_FOUR_B : N := 0xF0.

(** [core::char::encode_utf8_raw]. *)
Definition encode_utf8_raw (code : N) : bytes :=
  match len_utf8 code with
  | 1%nat => [byte_of_N code]
  | 2%nat => [byte_of_N (N.lor (N.land (N.shiftr code 6) 0x1F) TAG_TWO_B);
          byte_of_N (N.lor (N.land code 0x3F) TAG_CONT)]
  | 3%nat => [byte_of_N (N.lor (N.land (N.shiftr code 12) 0x0F) TAG_THREE_B);
          byte_of_N (N.lor (N.land (N.shiftr code 6) 0x3F) TAG_CONT);
          byte_of_N (N.lor (N.land code 0x3F) TAG_CONT)]
  | _ => [byte_of_N (N.lor (N.land (N.shiftr code 18) 0x07) TAG_FOUR_B);
          byte_of_N (N.lor (N.land (N.shiftr code 12) 0x3F) TAG_CONT);
          byte_of_N (N.lor (N.land (N.shiftr code 6) 0x3F) TAG_CONT);
          byte_of_N (N.lor (N.land code 0x3F) TAG_CONT)]
  end.

(** The encoding of a sequence of chars. *)
Definition encode_str (cs : list N) : bytes := cs ≫= encode_utf8_raw.

(** A byte sequence is UTF-8 when it encodes a sequence of scalars. *)
Definition well_formed (v : bytes) : Prop :=
  exists cs, Forall (fun c => is_scalar c = true) cs /\ v = encode_str cs.

(** ** Validation: [core::str::validations::run_utf8_validation] *)

Record Utf8Error := {
  valid_up_to : nat;
  error_len : option nat
}.

Definition in_range (lo hi : N) (b : byte) : bool := (lo <=? u8 b) && (u8 b <=? hi).

(** [next!() as i8 >= -64]: the byte is not a continuation byte. *)
Definition not_cont (b : byte) : bool := (as_i8 b >=? -64)%Z.

(** The second-byte patterns of [match (first, next!())], width 3. *)
Definition second_ok3 (first second : byte) : bool :=
  let f := u8 first in
  ((f =? 0xE0) && in_range 0xA0 0xBF second)
  || ((0xE1 <=? f) && (f <=? 0xEC) && in_range 0x80 0xBF second)
  || ((f =? 0xED) && in_range 0x80 0x9F second)
  || ((0xEE <=? f) && (f <=? 0xEF) && in_range 0x80 0xBF second).

(** The second-byte patterns of [match (first, next!())], width 4. *)
Definition second_ok4 (first second : byte) : bool :=
  let f := u8 first in
  ((f =? 0xF0) && in_range 0x90 0xBF second)
  || ((0xF1 <=? f) && (f <=? 0xF3) && in_range 0x80 0xBF second)
  || ((f =? 0xF4) && in_range 0x80 0x8F second).

(** The loop [while index < len] from offset [index]; [v] is the
    unread suffix.  [err!(l)] reports [old_offset] (here [index]); a
    [next!()] past the end reports [error_len: None].  This is the loop
    without its ASCII fast path, the reference definition: [Utf8Fast]
    models the loop with the fast path and proves it equal to this one. *)
Fixpoint validate_from (index : nat) (v : bytes) : result unit Utf8Error :=
  let err l := Err {| valid_up_to := index; error_len := l |} in
  match v with
  | [] => Ok tt
  | first :: r1 =>
    if 128 <=? u8 first then
      match utf8_char_width first with
      | 2%nat =>
        match r1 with
        | [] => err None
        | b :: r2 => if not_cont b then err (Some 1%nat) else validate_from (index + 2)%nat r2
        end
      | 3%nat =>
        match r1 with
        | [] => err None
        | b :: r2 =>
          if negb (second_ok3 first b) then err (Some 1%nat) else
          match r2 with
          | [] => err None
          | c :: r3 => if not_cont c then err (Some 2%nat) else validate_from (index + 3)%nat r3
          end
        end
      | 4%nat =>
        match r1 with
        | [] => err None
        | b :: r2 =>
          if negb (second_ok4 first b) then err (Some 1%nat) else
          match r2 with
          | [] => err None
          | c :: r3 =>
            if not_cont c then err (Some 2%nat) else
            match r3 with
            | [] => err None
            | d :: r4 => if not_cont d then err (Some 3%nat) else validate_from (index + 4)%nat r4
            end
          end
        end
      | _ => err (Some 1%nat)
      end
    else validate_from (S index) r1
  end.

Definition run_utf8_validation (v : bytes) : result unit Utf8Error := validate_from 0%nat v.

(** [str::from_utf8]. *)
Definition from_utf8 (v : bytes) : result bytes Utf8Error :=
  match run_utf8_validation v with
  | Ok _ => Ok v
  | Err e => Err e
  end.

(** ** Decoding: [core::str::validations::next_code_point] *)

Definition CONT_MASK : N := 0x3F.

(** [utf8_first_byte(byte, width) = (byte & (0x7F >> width)) as u32]. *)
Definition utf8_first_byte (b : byte) (width : N) : N :=
  N.land (u8 b) (N.shiftr 0x7F width).

(** [utf8_acc_cont_byte(ch, byte) = (ch << 6) | (byte & CONT_MASK) as u32]. *)
Definition utf8_acc_cont_byte (ch : N) (b : byte) : N :=
  N.lor (shl32 ch 6) (N.land (u8 b) CONT_MASK).

(** One step of the [Chars] iterator on the unread bytes.  The source
    reads the continuation bytes with [unwrap_unchecked]; on a [&str]
    they are always there (theorem [next_code_point_encode]), and the
    model answers [None] where the source would read past the end. *)
Definition next_code_point (v : bytes) : option (N * bytes) :=
  match v with
  | [] => None
  | x :: r1 =>
    if u8 x <? 128 then Some (u8 x, r1) else
    let init := utf8_first_byte x 2 in
    match r1 with
    | [] => None
    | y :: r2 =>
      let ch := utf8_acc_cont_byte init y in
      if 0xE0 <=? u8 x then
        match r2 with
        | [] => None
        | z :: r3 =>
          let y_z := utf8_acc_cont_byte (N.land (u8 y) CONT_MASK) z in
          let ch := N.lor (shl32 init 12) y_z in
          if 0xF0 <=? u8 x then
            match r3 with
            | [] => None
            | w :: r4 => Some (N.lor (shl32 (N.land init 7) 18) (utf8_acc_cont_byte y_z w), r4)
            end
          else Some (ch, r3)
        end
      else Some (ch, r2)
    end
  end.

(** [s.chars()] collected: [next_code_point] until it answers [None].
    Each step consumes a byte, so [length v] steps are enough
    ([chars_fuel_enough]). *)
Fixpoint chars_fuel (fuel : nat) (v : bytes) : list N :=
  match fuel with
  | O => []
  | S fuel' =>
    match next_code_point v with
    | None => []
    | Some (c, rest) => c :: chars_fuel fuel' rest
    end
  end.

Definition chars (v : bytes) : list N := chars_fuel (length v) v.

(** [core::str::count::count_chars]: the number of bytes that are not
    continuation bytes ([char_count_general_case]; the word-at-a-time
    routine used on long strings computes the same count). *)
Definition count_chars (v : bytes) : nat :=
  count_if (fun b => negb (utf8_is_cont_byte b)) v.

(** ** Bytes and bits as arithmetic *)

Lemma u8_bound (b : byte) : u8 b < 256.
Proof. pose proof (Byte.to_N_bounded b). unfold u8. lia. Qed.

Lemma u8_inj (a b : byte) : u8 a = u8 b -> a = b.
Proof.
  unfold u8. intros H. pose proof (Byte.of_to_N a) as Ha.
  rewrite H, Byte.of_to_N in Ha. congruence.
Qed.

Lemma u8_byte_of_N (n : N) : u8 (byte_of_N n) = n mod 256.
Proof.
  unfold byte_of_N, u8. destruct (Byte.of_N (n mod 256)) eqn:E.
  - by apply Byte.to_of_N.
  - apply Byte.of_N_None_iff in E. pose proof (N.mod_lt n 256). lia.
Qed.

(** The byte whose value is [n] is [byte_of_N n]. *)
Lemma byte_of_N_eq (n : N) (b : byte) : n < 256 -> u8 b = n -> byte_of_N n = b.
Proof.
  intros Hn Hb. apply u8_inj. rewrite u8_byte_of_N, N.mod_small; lia.
Qed.

Lemma u8_byte_of_N_small (n : N) : n < 256 -> u8 (byte_of_N n) = n.
Proof. intros. rewrite u8_byte_of_N. by apply N.mod_small. Qed.

Lemma utf8_is_cont_byte_iff (b : byte) :
  utf8_is_cont_byte b = true <-> 128 <= u8 b < 192.
Proof.
  unfold utf8_is_cont_byte, as_i8. pose proof (u8_bound b).
  destruct (N.ltb_spec (u8 b) 128); rewrite Z.ltb_lt; lia.
Qed.

Lemma not_cont_negb (b : byte) : not_cont b = negb (utf8_is_cont_byte b).
Proof.
  unfold not_cont, utf8_is_cont_byte. by rewrite Z.geb_leb, Z.leb_antisym.
Qed.

(** Evaluate closed powers of two, so that [lia] sees constants. *)
Ltac norm_pow :=
  repeat match goal with
  | |- context [(Npos ?a ^ Npos ?b)%N] =>
      let v := eval vm_compute in (Npos a ^ Npos b)%N in change (Npos a ^ Npos b)%N with v
  | H : context [(Npos ?a ^ Npos ?b)%N] |- _ =>
      let v := eval vm_compute in (Npos a ^ Npos b)%N in change (Npos a ^ Npos b)%N with v in H
  end.

Lemma shl32_mul (x k : N) : x * 2 ^ k < 2 ^ 32 -> shl32 x k = x * 2 ^ k.
Proof.
  intros H. unfold shl32. rewrite N.land_ones, N.shiftl_mul_pow2.
  by apply N.mod_small.
Qed.

(** Or-ing a value below [2^k] into a multiple of [2^k] adds it. *)
Lemma lor_disjoint (a b k : N) : a mod 2 ^ k = 0 -> b < 2 ^ k -> N.lor a b = a + b.
Proof.
  intros Ha Hb.
  assert (Hk : 2 ^ k <> 0) by (apply N.pow_nonzero; lia).
  assert (Ea : a = N.shiftl (a / 2 ^ k) k).
  { rewrite N.shiftl_mul_pow2. pose proof (N.div_mod a (2 ^ k) Hk). lia. }
  assert (H0 : N.land a b = 0).
  { apply N.bits_inj_0. intros i. rewrite N.land_spec, Ea.
    destruct (N.lt_ge_cases i k).
    - by rewrite N.shiftl_spec_low.
    - rewrite <- (N.mod_small b (2 ^ k)), N.mod_pow2_bits_high by lia.
      apply andb_false_r. }
  rewrite <- N.lxor_lor by exact H0. symmetry. by apply N.add_nocarry_lxor.
Qed.

Lemma land_mask (a m k : N) : m = N.ones k -> N.land a m = a mod 2 ^ k.
Proof. intros ->. apply N.land_ones. Qed.

Lemma mul_pow_mod (a k : N) : (a * 2 ^ k) mod 2 ^ k = 0.
Proof. apply N.Div0.mod_mul. Qed.

Lemma first_byte_2 (b : byte) : utf8_first_byte b 2 = u8 b mod 32.
Proof. unfold utf8_first_byte. by apply (land_mask _ _ 5). Qed.

Lemma acc_cont_arith (ch : N) (b : byte) :
  ch < 2 ^ 26 -> utf8_acc_cont_byte ch b = ch * 64 + u8 b mod 64.
Proof.
  intros H. unfold utf8_acc_cont_byte, CONT_MASK.
  rewrite shl32_mul by (norm_pow; lia).
  rewrite (land_mask _ _ 6), (lor_disjoint _ _ 6) by (done || apply mul_pow_mod || apply N.mod_lt; lia).
  done.
Qed.

Lemma mod_32_8 (a : N) : a mod 32 mod 8 = a mod 8.
Proof.
  change 32 with (8 * 4). rewrite N.Div0.mod_mul_r, N.mul_comm, N.Div0.mod_add.
  apply N.Div0.mod_mod.
Qed.

Section decode.
Context (x y z w : byte) (r : bytes).

Lemma next_code_point_1 : u8 x < 128 -> next_code_point (x :: r) = Some (u8 x, r).
  Proof. intros H. simpl. by rewrite (proj2 (N.ltb_lt _ _) H). Qed.

Lemma next_code_point_2 :
    128 <= u8 x < 0xE0 ->
    next_code_point (x :: y :: r) = Some (u8 x mod 32 * 64 + u8 y mod 64, r).
  Proof.
    intros H. simpl. rewrite (proj2 (N.ltb_ge _ _)), (proj2 (N.leb_gt _ _)) by lia.
    rewrite first_byte_2, acc_cont_arith; [done|].
    pose proof (N.mod_lt (u8 x) 32). norm_pow. lia.
  Qed.

Lemma y_z_arith :
    utf8_acc_cont_byte (N.land (u8 y) CONT_MASK) z = u8 y mod 64 * 64 + u8 z mod 64.
  Proof.
    rewrite (land_mask _ _ 6) by done. apply acc_cont_arith.
    pose proof (N.mod_lt (u8 y) 64). norm_pow. lia.
  Qed.

Lemma next_code_point_3 :
    0xE0 <= u8 x < 0xF0 ->
    next_code_point (x :: y :: z :: r) =
      Some (u8 x mod 32 * 4096 + u8 y mod 64 * 64 + u8 z mod 64, r).
  Proof.
    intros H. simpl. rewrite (proj2 (N.ltb_ge _ _)), (proj2 (N.leb_le _ _)),
      (proj2 (N.leb_gt _ _)) by lia.
    rewrite first_byte_2, y_z_arith.
    pose proof (N.mod_lt (u8 x) 32). pose proof (N.mod_lt (u8 y) 64).
    pose proof (N.mod_lt (u8 z) 64).
    rewrite shl32_mul by (norm_pow; lia).
    rewrite (lor_disjoint _ _ 12) by (apply mul_pow_mod || (norm_pow; lia)).
    do 2 f_equal. norm_pow. lia.
  Qed.

Lemma next_code_point_4 :
    0xF0 <= u8 x ->
    next_code_point (x :: y :: z :: w :: r) =
      Some (u8 x mod 8 * 2 ^ 18 + u8 y mod 64 * 4096 + u8 z mod 64 * 64 + u8 w mod 64, r).
  Proof.
    intros H. simpl. rewrite (proj2 (N.ltb_ge _ _)), !(proj2 (N.leb_le _ _)) by lia.
    rewrite first_byte_2, y_z_arith, (land_mask _ _ 3), mod_32_8 by done.
    pose proof (N.mod_lt (u8 y) 64). pose proof (N.mod_lt (u8 z) 64).
    pose proof (N.mod_lt (u8 w) 64). pose proof (N.mod_lt (u8 x) 8).
    rewrite acc_cont_arith by (norm_pow; lia).
    rewrite shl32_mul by (norm_pow; lia).
    rewrite (lor_disjoint _ _ 18) by (apply mul_pow_mod || (norm_pow; lia)).
    do 2 f_equal. norm_pow. lia.
  Qed.
End decode.

(** ** The encoder in arithmetic form *)

Lemma lor_tag (v t k : N) : t mod 2 ^ k = 0 -> v < 2 ^ k -> N.lor v t = t + v.
Proof. intros. rewrite N.lor_comm. by apply (lor_disjoint _ _ k). Qed.

Ltac enc_arith :=
  rewrite ?N.shiftr_div_pow2, ?(land_mask _ 0x1F 5), ?(land_mask _ 0x3F 6),
    ?(land_mask _ 0x0F 4), ?(land_mask _ 0x07 3) by done;
  unfold TAG_CONT, TAG_TWO_B, TAG_THREE_B, TAG_FOUR_B;
  repeat match goal with
  | |- context [N.lor (?v mod 2 ^ ?k) ?t] =>
      rewrite (lor_tag (v mod 2 ^ k) t k)
        by (reflexivity || (apply N.mod_lt, N.pow_nonzero; lia))
  end.

Lemma len_utf8_cases (c : N) :
  (c < 0x80 /\ len_utf8 c = 1%nat) \/ (0x80 <= c < 0x800 /\ len_utf8 c = 2%nat) \/
  (0x800 <= c < 0x10000 /\ len_utf8 c = 3%nat) \/ (0x10000 <= c /\ len_utf8 c = 4%nat).
Proof.
  unfold len_utf8.
  destruct (N.ltb_spec c 0x80); [left; lia|].
  destruct (N.ltb_spec c 0x800); [right; left; lia|].
  destruct (N.ltb_spec c 0x10000); [right; right; left; lia|]. right; right; right; lia.
Qed.

Section encode.
Context (c : N).

Lemma encode_2 : len_utf8 c = 2%nat ->
    encode_utf8_raw c =
      [byte_of_N (0xC0 + c / 2 ^ 6 mod 2 ^ 5); byte_of_N (0x80 + c mod 2 ^ 6)].
  Proof. intros H. unfold encode_utf8_raw. rewrite H. by enc_arith. Qed.

Lemma encode_3 : len_utf8 c = 3%nat ->
    encode_utf8_raw c =
      [byte_of_N (0xE0 + c / 2 ^ 12 mod 2 ^ 4); byte_of_N (0x80 + c / 2 ^ 6 mod 2 ^ 6);
       byte_of_N (0x80 + c mod 2 ^ 6)].
  Proof. intros H. unfold encode_utf8_raw. rewrite H. by enc_arith. Qed.

Lemma encode_4 : len_utf8 c = 4%nat ->
    encode_utf8_raw c =
      [byte_of_N (0xF0 + c / 2 ^ 18 mod 2 ^ 3); byte_of_N (0x80 + c / 2 ^ 12 mod 2 ^ 6);
       byte_of_N (0x80 + c / 2 ^ 6 mod 2 ^ 6); byte_of_N (0x80 + c mod 2 ^ 6)].
  Proof. intros H. unfold encode_utf8_raw. rewrite H. by enc_arith. Qed.
End encode.

Lemma encode_1 (c : N) : len_utf8 c = 1%nat -> encode_utf8_raw c = [byte_of_N c].
Proof. intros H. unfold encode_utf8_raw. by rewrite H. Qed.

(** A byte [tag + x] with the payload [x] below the tag's alignment. *)
Lemma tagged_mod (t x m : N) : t mod m = 0 -> x < m -> (t + x) mod m = x.
Proof.
  intros Ht Hx. rewrite N.Div0.add_mod, Ht, N.add_0_l, N.Div0.mod_mod.
  by apply N.mod_small.
Qed.

Ltac tagged_bytes :=
  rewrite ?u8_byte_of_N_small by div_lia;
  rewrite ?(tagged_mod 0x80 _ 64), ?(tagged_mod 0xC0 _ 32), ?(tagged_mod 0xE0 _ 32),
    ?(tagged_mod 0xF0 _ 8) by (reflexivity || div_lia).

(** Decoding the encoding of a code point below [0x110000] gives it back
    and consumes exactly its bytes. *)
Lemma next_code_point_encode_raw (c : N) (rest : bytes) :
  c < 0x110000 -> next_code_point (encode_utf8_raw c ++ rest) = Some (c, rest).
Proof.
  intros Hc.
  destruct (len_utf8_cases c) as [[? E]|[[? E]|[[? E]|[? E]]]].
  - rewrite encode_1 by done. cbn [app].
    rewrite next_code_point_1; rewrite u8_byte_of_N_small; (done || lia).
  - rewrite encode_2 by done. cbn [app]. norm_pow.
    rewrite next_code_point_2 by (tagged_bytes; div_lia).
    tagged_bytes. do 2 f_equal. div_lia.
  - rewrite encode_3 by done. cbn [app]. norm_pow.
    rewrite next_code_point_3 by (tagged_bytes; div_lia).
    tagged_bytes. do 2 f_equal. div_lia.
  - rewrite encode_4 by done. cbn [app]. norm_pow.
    rewrite next_code_point_4 by (tagged_bytes; div_lia).
    tagged_bytes. do 2 f_equal. norm_pow. div_lia.
Qed.


(** ** The [Chars] iterator *)

Lemma next_code_point_length (v r : bytes) (c : N) :
  next_code_point v = Some (c, r) -> (length r < length v)%nat.
Proof.
  unfold next_code_point. intros H.
  repeat (case_match; simplify_eq/=; try lia).
Qed.

Lemma chars_fuel_stable (n m : nat) (v : bytes) :
  (length v <= n)%nat -> (length v <= m)%nat -> chars_fuel n v = chars_fuel m v.
Proof.
  revert m v. induction n as [|n IH]; intros m v Hn Hm.
  - destruct v; [|simpl in Hn; lia]. destruct m; simpl; [done|]. done.
  - destruct m as [|m].
    + destruct v; [done | simpl in Hm; lia].
    + simpl. destruct (next_code_point v) as [[c r]|] eqn:E; [|done].
      apply next_code_point_length in E. f_equal. apply IH; lia.
Qed.

Lemma encode_utf8_raw_length (c : N) : length (encode_utf8_raw c) = len_utf8 c.
Proof.
  unfold encode_utf8_raw.
  destruct (len_utf8_cases c) as [[? ->]|[[? ->]|[[? ->]|[? ->]]]]; done.
Qed.

Lemma len_utf8_pos (c : N) : (1 <= len_utf8 c <= 4)%nat.
Proof. destruct (len_utf8_cases c) as [[? ->]|[[? ->]|[[? ->]|[? ->]]]]; lia. Qed.

Lemma encode_str_cons (c : N) (cs : list N) :
  encode_str (c :: cs) = encode_utf8_raw c ++ encode_str cs.
Proof. done. Qed.

Lemma chars_encode_app (c : N) (rest : bytes) :
  c < 0x110000 ->
  chars (encode_utf8_raw c ++ rest) = c :: chars rest.
Proof.
  intros Hc. unfold chars. rewrite length_app, encode_utf8_raw_length.
  pose proof (len_utf8_pos c).
  destruct (len_utf8 c) as [|k] eqn:E; [lia|]. simpl.
  rewrite next_code_point_encode_raw by done. f_equal.
  apply chars_fuel_stable; lia.
Qed.

(** ** Counting the characters of an encoding *)

Lemma cont_byte_tagged (x : N) : x < 64 -> utf8_is_cont_byte (byte_of_N (0x80 + x)) = true.
Proof. intros. apply utf8_is_cont_byte_iff. rewrite u8_byte_of_N_small; lia. Qed.

Lemma lead_byte_not_cont (t x : N) :
  0xC0 <= t + x < 256 -> utf8_is_cont_byte (byte_of_N (t + x)) = false.
Proof.
  intros. apply not_true_iff_false. rewrite utf8_is_cont_byte_iff.
  rewrite u8_byte_of_N_small; lia.
Qed.

Lemma count_chars_encode_raw (c : N) : count_chars (encode_utf8_raw c) = 1%nat.
Proof.
  unfold count_chars.
  destruct (len_utf8_cases c) as [[? E]|[[? E]|[[? E]|[? E]]]].
  - rewrite encode_1 by done. simpl.
    assert (Hnc : utf8_is_cont_byte (byte_of_N c) = false).
    { apply not_true_iff_false. rewrite utf8_is_cont_byte_iff, u8_byte_of_N_small; lia. }
    by rewrite Hnc.
  - rewrite encode_2 by done. norm_pow. simpl.
    rewrite lead_byte_not_cont, cont_byte_tagged by div_lia. done.
  - rewrite encode_3 by done. norm_pow. simpl.
    rewrite lead_byte_not_cont, !cont_byte_tagged by div_lia. done.
  - rewrite encode_4 by done. norm_pow. simpl.
    rewrite lead_byte_not_cont, !cont_byte_tagged by div_lia. done.
Qed.

(** ** The bytes of an encoding

    An encoding is the ASCII byte itself, or bytes that are all at least
    [0x80]: no byte of a multi-byte encoding is an ASCII byte (a line
    feed or whitespace). *)

Lemma high_byte (t x : N) : 0x80 <= t + x < 256 -> 128 <= u8 (byte_of_N (t + x)).
Proof. intros. rewrite u8_byte_of_N_small; lia. Qed.

Lemma encode_ascii_or_high (c : N) :
  (c < 0x80 /\ encode_utf8_raw c = [byte_of_N c]) \/
  (encode_utf8_raw c <> [] /\ Forall (fun b => 128 <= u8 b) (encode_utf8_raw c)).
Proof.
  destruct (len_utf8_cases c) as [[? E]|[[? E]|[[? E]|[? E]]]];
    [left; split; [done | by apply encode_1] | ..];
    right; rewrite ?encode_2, ?encode_3, ?encode_4 by done; norm_pow;
    (split; [done|]); repeat constructor; apply high_byte; div_lia.
Qed.

(** ** Validation accepts exactly the encodings of scalars *)

(** Evaluate the comparisons in the goal that the hypotheses decide. *)
Ltac cmp_simpl :=
  repeat first
    [ rewrite (proj2 (N.ltb_lt _ _)) by div_lia
    | rewrite (proj2 (N.ltb_ge _ _)) by div_lia
    | rewrite (proj2 (N.leb_le _ _)) by div_lia
    | rewrite (proj2 (N.leb_gt _ _)) by div_lia ].

Lemma second_ok3_iff (f s : byte) :
  second_ok3 f s = true <->
  (u8 f = 0xE0 /\ 0xA0 <= u8 s <= 0xBF) \/ (0xE1 <= u8 f <= 0xEC /\ 0x80 <= u8 s <= 0xBF) \/
  (u8 f = 0xED /\ 0x80 <= u8 s <= 0x9F) \/ (0xEE <= u8 f <= 0xEF /\ 0x80 <= u8 s <= 0xBF).
Proof.
  unfold second_ok3, in_range.
  rewrite !orb_true_iff, !andb_true_iff, !N.eqb_eq, !N.leb_le. tauto.
Qed.

Lemma second_ok4_iff (f s : byte) :
  second_ok4 f s = true <->
  (u8 f = 0xF0 /\ 0x90 <= u8 s <= 0xBF) \/ (0xF1 <= u8 f <= 0xF3 /\ 0x80 <= u8 s <= 0xBF) \/
  (u8 f = 0xF4 /\ 0x80 <= u8 s <= 0x8F).
Proof.
  unfold second_ok4, in_range.
  rewrite !orb_true_iff, !andb_true_iff, !N.eqb_eq, !N.leb_le. tauto.
Qed.

Lemma is_scalar_iff (c : N) : is_scalar c = true <-> c < 0xD800 \/ 0xDFFF < c < 0x110000.
Proof. unfold is_scalar. rewrite orb_true_iff, andb_true_iff, !N.ltb_lt. tauto. Qed.

Lemma validate_encode (i : nat) (c : N) (rest : bytes) :
  is_scalar c = true ->
  validate_from i (encode_utf8_raw c ++ rest) = validate_from (i + len_utf8 c) rest.
Proof.
  rewrite is_scalar_iff. intros Hc.
  destruct (len_utf8_cases c) as [[? E]|[[? E]|[[? E]|[? E]]]]; rewrite E.
  - rewrite encode_1 by done. simpl. rewrite u8_byte_of_N_small by lia. cmp_simpl.
    by rewrite Nat.add_1_r.
  - rewrite encode_2 by done. norm_pow. simpl.
    unfold utf8_char_width. rewrite !not_cont_negb, cont_byte_tagged by div_lia.
    rewrite !u8_byte_of_N_small by div_lia. cmp_simpl. reflexivity.
  - rewrite encode_3 by done. norm_pow. simpl.
    unfold utf8_char_width. rewrite !not_cont_negb, !cont_byte_tagged by div_lia.
    assert (Hs : second_ok3 (byte_of_N (224 + c / 4096 mod 16))
                   (byte_of_N (128 + c / 64 mod 64)) = true).
    { apply second_ok3_iff. rewrite !u8_byte_of_N_small by div_lia.
      destruct (N.eq_dec (c / 4096) 0); [left; div_lia|].
      destruct (N.le_gt_cases (c / 4096) 12); [right; left; div_lia|].
      destruct (N.eq_dec (c / 4096) 13); [right; right; left; div_lia|].
      right; right; right; div_lia. }
    rewrite Hs. rewrite !u8_byte_of_N_small by div_lia. cmp_simpl. reflexivity.
  - rewrite encode_4 by done. norm_pow. simpl.
    unfold utf8_char_width. rewrite !not_cont_negb, !cont_byte_tagged by div_lia.
    assert (Hs : second_ok4 (byte_of_N (240 + c / 262144 mod 8))
                   (byte_of_N (128 + c / 4096 mod 64)) = true).
    { apply second_ok4_iff. rewrite !u8_byte_of_N_small by div_lia.
      destruct (N.eq_dec (c / 262144) 0); [left; div_lia|].
      destruct (N.le_gt_cases (c / 262144) 3); [right; left; div_lia|].
      right; right; div_lia. }
    rewrite Hs. rewrite !u8_byte_of_N_small by div_lia. cmp_simpl. reflexivity.
Qed.

Lemma validate_encode_str (i : nat) (cs : list N) :
  Forall (fun c => is_scalar c = true) cs -> validate_from i (encode_str cs) = Ok tt.
Proof.
  intros Hcs. revert i. induction Hcs as [|c cs Hc _ IH]; intros i; [done|].
  rewrite encode_str_cons, validate_encode by done. apply IH.
Qed.

Lemma width_cases (b : byte) :
  (utf8_char_width b = 2%nat -> 0xC2 <= u8 b < 0xE0) /\
  (utf8_char_width b = 3%nat -> 0xE0 <= u8 b < 0xF0) /\
  (utf8_char_width b = 4%nat -> 0xF0 <= u8 b < 0xF5).
Proof.
  unfold utf8_char_width.
  repeat match goal with |- context [(?a <? ?b)%N] => destruct (N.ltb_spec a b) end;
  repeat split; intros; (discriminate || lia).
Qed.

Lemma len_utf8_of (c : N) (k : nat) :
  (k = 2%nat /\ 0x80 <= c < 0x800) \/ (k = 3%nat /\ 0x800 <= c < 0x10000) \/
  (k = 4%nat /\ 0x10000 <= c) -> len_utf8 c = k.
Proof.
  unfold len_utf8. intros [[-> ?]|[[-> ?]|[-> ?]]]; cmp_simpl; reflexivity.
Qed.

Lemma cont_not_cont (b : byte) : not_cont b = false -> 128 <= u8 b < 192.
Proof. rewrite not_cont_negb, negb_false_iff. apply utf8_is_cont_byte_iff. Qed.

(** The bytes of one accepted sequence are the encoding of a scalar. *)
Ltac accept_tac :=
  split; [apply is_scalar_iff; div_lia|];
  first
    [ rewrite encode_2 by (apply len_utf8_of; left; split; [done|div_lia])
    | rewrite encode_3 by (apply len_utf8_of; right; left; split; [done|div_lia])
    | rewrite encode_4 by (apply len_utf8_of; right; right; split; [done|div_lia]) ];
  norm_pow; repeat f_equal; apply byte_of_N_eq; div_lia.

Lemma accept_2 (x y : byte) :
  0xC2 <= u8 x < 0xE0 -> 128 <= u8 y < 192 ->
  exists c, is_scalar c = true /\ encode_utf8_raw c = [x; y].
Proof.
  intros. exists (u8 x mod 32 * 64 + u8 y mod 64). accept_tac.
Qed.

Lemma accept_3 (x y z : byte) :
  second_ok3 x y = true -> 0xE0 <= u8 x < 0xF0 -> 128 <= u8 z < 192 ->
  exists c, is_scalar c = true /\ encode_utf8_raw c = [x; y; z].
Proof.
  rewrite second_ok3_iff. intros Hs ? ?.
  exists (u8 x mod 32 * 4096 + u8 y mod 64 * 64 + u8 z mod 64).
  destruct Hs as [[? ?]|[[? ?]|[[? ?]|[? ?]]]]; accept_tac.
Qed.

Lemma accept_4 (x y z w : byte) :
  second_ok4 x y = true -> 0xF0 <= u8 x < 0xF5 -> 128 <= u8 z < 192 -> 128 <= u8 w < 192 ->
  exists c, is_scalar c = true /\ encode_utf8_raw c = [x; y; z; w].
Proof.
  rewrite second_ok4_iff. intros Hs ? ? ?.
  exists (u8 x mod 8 * 262144 + u8 y mod 64 * 4096 + u8 z mod 64 * 64 + u8 w mod 64).
  destruct Hs as [[? ?]|[[? ?]|[? ?]]]; accept_tac.
Qed.

Lemma well_formed_nil : well_formed [].
Proof. by exists []. Qed.

Lemma well_formed_cons (c : N) (r : bytes) :
  is_scalar c = true -> well_formed r -> well_formed (encode_utf8_raw c ++ r).
Proof. intros Hc (cs & Hcs & ->). exists (c :: cs). split; [by constructor|done]. Qed.

Lemma len_utf8_of_encode (c : N) (l : bytes) :
  encode_utf8_raw c = l -> len_utf8 c = length l.
Proof. intros <-. by rewrite encode_utf8_raw_length. Qed.

Local Ltac here := right; eexists; split; reflexivity.
Local Ltac accepted H c :=
  left; exists c; eexists; rewrite (len_utf8_of_encode c _ H), H;
  split_and!; [reflexivity|done|reflexivity].

(** One step of the validation loop: it either accepts the encoding of
    one scalar and goes on after it, or stops with an error at [index]. *)
Lemma validate_from_cons (i : nat) (x : byte) (r : bytes) :
  (exists c rest, x :: r = encode_utf8_raw c ++ rest /\ is_scalar c = true /\
     validate_from i (x :: r) = validate_from (i + len_utf8 c) rest)
  \/ (exists e, validate_from i (x :: r) = Err e /\ valid_up_to e = i).
Proof.
  pose proof (width_cases x) as (W2 & W3 & W4).
  cbn [validate_from]. destruct (128 <=? u8 x) eqn:Ex.
  2:{ apply N.leb_gt in Ex.
      assert (Hx : encode_utf8_raw (u8 x) = [x]).
      { rewrite encode_1 by (unfold len_utf8; cmp_simpl; reflexivity).
        f_equal. apply byte_of_N_eq; [apply u8_bound | done]. }
      left. exists (u8 x), r. rewrite Hx, (len_utf8_of_encode _ _ Hx).
      split_and!; [done | apply is_scalar_iff; lia | simpl; f_equal; lia]. }
  destruct (utf8_char_width x) as [|[|[|[|[|n]]]]] eqn:Ew; try here.
  - destruct r as [|y r2]; [here|]. destruct (not_cont y) eqn:Ey; [here|].
    destruct (accept_2 x y) as (c & Hc & Ec); [by apply W2 | by apply cont_not_cont|].
    accepted Ec c.
  - destruct r as [|y r2]; [here|]. destruct (second_ok3 x y) eqn:Es; [|here].
    destruct r2 as [|z r3]; [here|]. destruct (not_cont z) eqn:Ez; [here|].
    destruct (accept_3 x y z) as (c & Hc & Ec); [done | by apply W3 | by apply cont_not_cont|].
    accepted Ec c.
  - destruct r as [|y r2]; [here|]. destruct (second_ok4 x y) eqn:Es; [|here].
    destruct r2 as [|z r3]; [here|]. destruct (not_cont z) eqn:Ez; [here|].
    destruct r3 as [|w r4]; [here|]. destruct (not_cont w) eqn:Ew'; [here|].
    destruct (accept_4 x y z w) as (c & Hc & Ec);
      [done | by apply W4 | by apply cont_not_cont | by apply cont_not_cont|].
    accepted Ec c.
Qed.

(** Induction on byte strings along the steps of the validation loop. *)
Lemma validate_ind (P : nat -> bytes -> Prop) :
  (forall i, P i []) ->
  (forall i x r e, validate_from i (x :: r) = Err e -> valid_up_to e = i -> P i (x :: r)) ->
  (forall i c rest, is_scalar c = true -> P (i + len_utf8 c)%nat rest ->
     validate_from i (encode_utf8_raw c ++ rest) = validate_from (i + len_utf8 c) rest ->
     P i (encode_utf8_raw c ++ rest)) ->
  forall v i, P i v.
Proof.
  intros Hnil Herr Hstep v. remember (length v) as n eqn:Hn. revert v Hn.
  induction n as [n IH] using lt_wf_ind. intros v -> i.
  destruct v as [|x r]; [apply Hnil|].
  destruct (validate_from_cons i x r) as [(c & rest & Ev & Hc & Hs) | (e & He & Hi)].
  - rewrite Ev in *. apply Hstep; [done| |done].
    apply (IH (length rest)); [|done].
    rewrite length_app, encode_utf8_raw_length. pose proof (len_utf8_pos c). lia.
  - by apply (Herr i x r e).
Qed.

Lemma validate_sound (v : bytes) (i : nat) : validate_from i v = Ok tt -> well_formed v.
Proof.
  revert v i.
  apply (validate_ind (fun i v => validate_from i v = Ok tt -> well_formed v)).
  - intros. apply well_formed_nil.
  - intros i x r e He _ Hv. congruence.
  - intros i c rest Hc IH Hs Hv. apply well_formed_cons; [done|]. apply IH. congruence.
Qed.

(** [run_utf8_validation] decides UTF-8: it succeeds exactly on the
    encodings of sequences of Unicode scalar values. *)
Theorem run_utf8_validation_ok_iff (v : bytes) :
  run_utf8_validation v = Ok tt <-> well_formed v.
Proof.
  split; [apply validate_sound | intros (cs & Hcs & ->); by apply validate_encode_str].
Qed.

(** Being UTF-8 is decided by the validator. *)
#[export] Instance well_formed_decision (v : bytes) : Decision (well_formed v).
Proof.
  destruct (run_utf8_validation v) as [[]|e] eqn:E;
    [left | right]; rewrite <- run_utf8_validation_ok_iff; congruence.
Defined.

Lemma validate_error (v : bytes) (i : nat) (e : Utf8Error) :
  validate_from i v = Err e ->
  (i <= valid_up_to e < i + length v)%nat /\ well_formed (take (valid_up_to e - i) v).
Proof.
  revert v i. apply (validate_ind (fun i v => validate_from i v = Err e ->
    (i <= valid_up_to e < i + length v)%nat /\ well_formed (take (valid_up_to e - i) v))).
  - done.
  - intros i x r e' He' Hi Hv. rewrite Hv in He'. simplify_eq.
    rewrite Nat.sub_diag. simpl.
    split; [lia | apply well_formed_nil].
  - intros i c rest Hc IH Hs Hv. rewrite Hs in Hv. destruct (IH Hv) as [Hb Hw].
    rewrite length_app, encode_utf8_raw_length.
    replace (valid_up_to e - i)%nat
      with (length (encode_utf8_raw c) + (valid_up_to e - (i + len_utf8 c)))%nat
      by (rewrite encode_utf8_raw_length; lia).
    rewrite take_app_add. split; [lia | by apply well_formed_cons].
Qed.

(** On an error, [valid_up_to] is an offset inside the input, the bytes
    before it are valid UTF-8, and the input as a whole is not. *)
Theorem run_utf8_validation_error (v : bytes) (e : Utf8Error) :
  run_utf8_validation v = Err e ->
  (valid_up_to e < length v)%nat /\ well_formed (take (valid_up_to e) v) /\ ~ well_formed v.
Proof.
  intros He. destruct (validate_error v 0 e He) as [Hb Hw].
  rewrite Nat.sub_0_r in Hw. split_and!; [lia | done |].
  intros (cs & Hcs & ->). unfold run_utf8_validation in He.
  by rewrite validate_encode_str in He.
Qed.

(** ** Decoding inverts encoding *)

Lemma scalar_bound (c : N) : is_scalar c = true -> c < 0x110000.
Proof. rewrite is_scalar_iff. lia. Qed.

Lemma chars_encode_str (cs : list N) :
  Forall (fun c => is_scalar c = true) cs -> chars (encode_str cs) = cs.
Proof.
  induction 1 as [|c cs Hc _ IH]; [done|].
  rewrite encode_str_cons, chars_encode_app by (by apply scalar_bound). by rewrite IH.
Qed.

Lemma count_chars_encode_str (cs : list N) : count_chars (encode_str cs) = length cs.
Proof.
  induction cs as [|c cs IH]; [done|].
  rewrite encode_str_cons. unfold count_chars in *.
  rewrite count_if_app, IH. fold (count_chars (encode_utf8_raw c)).
  by rewrite count_chars_encode_raw.
Qed.

(** ** Witnesses *)

Lemma run_utf8_validation_error_witness :
  let v := bs "a" ++ [Byte.xff] in
  let e := {| valid_up_to := 1%nat; error_len := Some 1%nat |} in
  run_utf8_validation v = Err e /\
  ((valid_up_to e < length v)%nat /\ well_formed (take (valid_up_to e) v) /\ ~ well_formed v).
Proof.
  intros v e. split; [reflexivity|]. apply run_utf8_validation_error. reflexivity.
Defined.

End Utf8.
