(* ===== verification/Iterators.v ===== *)
(** * Rust's [core] iterators that the counters call

    [str::lines] (which splits after each ['\n'] with [split_inclusive]
    and strips the terminator with [LinesMap]) and
    [str::split_ascii_whitespace] (which splits the bytes at every ASCII
    whitespace byte and drops the empty pieces), modelled from [core]'s
    source; the one-pass word counter [count_runs] of [wc]; and their
    lemmas: the lengths of the splits in closed form, the splits of
    concatenations, and the pieces of a UTF-8 encoding, against which
    [Counters] proves the counters of [lib.rs]. *)

From stdpp Require Import base list decidable.
From Stdlib Require Import Strings.Byte NArith Lia.
From S2P Require Import Prelude Utf8.

Module Iterators.
Import Utf8.

Definition LF : byte := Byte.x0a.
Definition CR : byte := Byte.x0d.

(** ** [core] iterators *)

(** [<[u8]>::split(pred)]: the slices between the bytes that satisfy
    [pred]; [k] matching bytes give [k + 1] slices, empty ones included. *)
Fixpoint split_by (pred : byte -> bool) (s : bytes) : list bytes :=
  match s with
  | [] => [[]]
  | b :: rest =>
    if pred b then [] :: split_by pred rest
    else match split_by pred rest with
         | [] => [[b]]
         | piece :: pieces => (b :: piece) :: pieces
         end
  end.

Definition is_empty (s : bytes) : bool := match s with [] => true | _ => false end.

(** [str::split_ascii_whitespace]:
    [self.as_bytes().split(u8::is_ascii_whitespace).filter(|s| !s.is_empty())]. *)
Definition split_ascii_whitespace (s : bytes) : list bytes :=
  List.filter (fun w => negb (is_empty w)) (split_by is_ascii_whitespace s).

(** [str::split_inclusive(sep)]: the pieces of [s], each ending with
    [sep] except possibly the last; no trailing empty piece. *)
Fixpoint split_inclusive (sep : byte) (s : bytes) : list bytes :=
  match s with
  | [] => []
  | b :: rest =>
    if decide (b = sep) then [b] :: split_inclusive sep rest
    else match split_inclusive sep rest with
         | [] => [[b]]
         | piece :: pieces => (b :: piece) :: pieces
         end
  end.

(** [str::strip_suffix(c)] for an ASCII [c]. *)
Definition strip_suffix (c : byte) (s : bytes) : option bytes :=
  match rev s with
  | b :: r => if decide (b = c) then Some (rev r) else None
  | [] => None
  end.

(** [LinesMap]: drop a trailing ["\n"], then a trailing ["\r"] before it. *)
Definition lines_map (line : bytes) : bytes :=
  match strip_suffix LF line with
  | None => line
  | Some line' =>
    match strip_suffix CR line' with
    | None => line'
    | Some line'' => line''
    end
  end.

(** [str::lines]: [self.split_inclusive('\n').map(LinesMap)]. *)
Definition lines (s : bytes) : list bytes := map lines_map (split_inclusive LF s).

(** [1] when [s] ends with a byte other than [sep] (an unterminated last
    line), [0] otherwise. *)
Fixpoint open_tail (sep : byte) (s : bytes) : nat :=
  match s with
  | [] => 0
  | [b] => if decide (b = sep) then 0 else 1
  | _ :: rest => open_tail sep rest
  end.

(** The one-pass word counter of [wc]: [in_run] says whether the
    previous byte was part of a run of bytes outside [p]; every byte
    outside [p] that starts a run counts one. *)
Fixpoint count_runs (p : byte -> bool) (in_run : bool) (s : bytes) : nat :=
  match s with
  | [] => 0
  | b :: rest =>
    if p b then count_runs p false rest
    else (if in_run then 0 else 1) + count_runs p true rest
  end.

(** Words as the maximal runs of non-whitespace bytes. *)
Definition count_words (s : bytes) : nat := count_runs is_ascii_whitespace false s.

Abbreviation nonempty_pieces l := (List.filter (fun w => negb (is_empty w)) l).

(** A byte predicate that holds of ASCII bytes only, as [b == b'\n'] and
    [u8::is_ascii_whitespace] do. *)
Definition ascii_only (p : byte -> bool) : Prop := forall b, p b = true -> (u8 b < 128)%N.

(** ** Lines *)

Lemma split_inclusive_nil_iff (sep : byte) (s : bytes) : split_inclusive sep s = [] <-> s = [].
Proof.
  split; [|by intros ->]. destruct s as [|b rest]; [done|]. simpl.
  case_decide; [done|]. by destruct (split_inclusive sep rest).
Qed.

Lemma length_split_inclusive (sep : byte) (s : bytes) :
  length (split_inclusive sep s) = count_if (fun b => bool_decide (b = sep)) s + open_tail sep s.
Proof.
  induction s as [|b rest IH]; [done|]. simpl.
  destruct rest as [|b' rest'] eqn:Er.
  - simpl. case_decide; simpl.
    + rewrite bool_decide_eq_true_2; done.
    + rewrite bool_decide_eq_false_2; done.
  - rewrite <- Er in *. case_decide as Hb.
    + rewrite bool_decide_eq_true_2 by done. simpl. rewrite IH. subst rest. simpl. lia.
    + rewrite bool_decide_eq_false_2 by done. subst rest.
      destruct (split_inclusive sep (b' :: rest')) as [|p ps] eqn:E;
        [by apply split_inclusive_nil_iff in E|].
      simpl in *. rewrite IH. done.
Qed.

Lemma length_split_inclusive_cons (sep b : byte) (s : bytes) :
  length (split_inclusive sep (b :: s)) <= S (length (split_inclusive sep s)).
Proof. simpl. case_decide; simpl; [lia|]. destruct (split_inclusive sep s); simpl; lia. Qed.

(** A non-empty piece without separator joins the first line of what follows. *)
Lemma length_split_inclusive_piece (sep : byte) (w s : bytes) :
  Forall (fun b => bool_decide (b = sep) = false) w -> w <> [] ->
  length (split_inclusive sep (w ++ s)) = max 1 (length (split_inclusive sep s)).
Proof.
  induction 1 as [|b w Hb Hw IH]; [done|]. intros _.
  apply bool_decide_eq_false in Hb. simpl. rewrite decide_False by done.
  destruct w as [|b' w'].
  - simpl. destruct (split_inclusive sep s); simpl; lia.
  - rewrite <- IH by done. destruct (split_inclusive sep ((b' :: w') ++ s)) eqn:E.
    + by apply split_inclusive_nil_iff in E.
    + simpl. lia.
Qed.

Lemma open_tail_app_sep (sep : byte) (s t : bytes) :
  open_tail sep (s ++ sep :: t) = open_tail sep t.
Proof.
  induction s as [|b s IH].
  - destruct t; simpl; [by rewrite decide_True | done].
  - rewrite <- app_comm_cons, <- IH. by destruct s.
Qed.

Lemma lines_le_length (sep : byte) (s : bytes) :
  count_if (fun b => bool_decide (b = sep)) s + open_tail sep s <= length s.
Proof.
  induction s as [|b rest IH]; [done|].
  destruct rest as [|b' rest']; simpl in *;
    repeat (case_decide || case_bool_decide); simpl in *; (congruence || lia).
Qed.


(** ** Words *)

Lemma split_by_not_nil (p : byte -> bool) (s : bytes) : split_by p s <> [].
Proof.
  destruct s as [|b rest]; simpl; [done|]. destruct (p b); [done|].
  by destruct (split_by p rest).
Qed.

(** The non-empty pieces of [split_by p s] are counted by [count_runs]:
    all of them from a run boundary, all but the first inside a run. *)
Lemma split_by_runs (p : byte -> bool) (s : bytes) :
  length (nonempty_pieces (split_by p s)) = count_runs p false s /\
  length (nonempty_pieces (tail (split_by p s))) = count_runs p true s.
Proof.
  induction s as [|b rest [IH1 IH2]]; [done|]. simpl.
  destruct (p b); [done|].
  pose proof (split_by_not_nil p rest) as Hne.
  destruct (split_by p rest) as [|piece pieces]; [done|]. simpl in *. lia.
Qed.

Lemma count_runs_app_run (p : byte -> bool) (r : bool) (w s : bytes) :
  Forall (fun b => p b = false) w -> w <> [] ->
  count_runs p r (w ++ s) = (if r then 0 else 1) + count_runs p true s.
Proof.
  intros Hw. revert r. induction Hw as [|b w Hb Hw IH]; [done|]. intros r _.
  simpl. rewrite Hb. destruct w as [|b' w']; [done|]. rewrite IH by done. done.
Qed.

Lemma count_runs_app_sep (p : byte -> bool) (r : bool) (s t : bytes) (b : byte) :
  p b = true -> count_runs p r (s ++ b :: t) = count_runs p r s + count_runs p false t.
Proof.
  intros Hb. revert r. induction s as [|x s IH]; intros r; simpl; [by rewrite Hb|].
  destruct (p x); rewrite IH; lia.
Qed.

Lemma count_runs_bound (p : byte -> bool) (s : bytes) :
  2 * count_runs p false s <= length s + 1 /\ 2 * count_runs p true s <= length s.
Proof. induction s as [|b rest IH]; simpl; [lia|]. destruct (p b); lia. Qed.


(** ** The pieces of a UTF-8 encoding *)

Lemma ascii_only_whitespace : ascii_only is_ascii_whitespace.
Proof. intros b. destruct b; (discriminate || (intros _; reflexivity)). Qed.

Lemma ascii_only_eq (c : byte) : (u8 c < 128)%N -> ascii_only (fun b => bool_decide (b = c)).
Proof. intros Hc b Hb%bool_decide_eq_true. by subst. Qed.

(** Against an ASCII-only predicate, a character's encoding is one byte,
    or a non-empty run of bytes that do not satisfy it. *)
Lemma encode_piece (p : byte -> bool) (c : N) :
  ascii_only p ->
  (exists b, encode_utf8_raw c = [b]) \/
  (encode_utf8_raw c <> [] /\ Forall (fun b => p b = false) (encode_utf8_raw c)).
Proof.
  intros Hp. destruct (encode_ascii_or_high c) as [[_ ->] | [Hne Hhi]]; [left; by eexists|].
  right. split; [done|]. apply List.Forall_forall. intros b Hb.
  pose proof (proj1 (List.Forall_forall _ _) Hhi b Hb) as Hb'. cbv beta in Hb'.
  destruct (p b) eqn:E; [apply Hp in E; lia | done].
Qed.

Lemma lines_encode_le (cs : list N) : length (split_inclusive LF (encode_str cs)) <= length cs.
Proof.
  induction cs as [|c cs IH]; [done|]. rewrite encode_str_cons.
  destruct (encode_piece _ c (ascii_only_eq LF eq_refl)) as [[b ->] | [Hne Hall]].
  - simpl app. pose proof (length_split_inclusive_cons LF b (encode_str cs)).
    change (length (c :: cs)) with (S (length cs)). lia.
  - rewrite length_split_inclusive_piece by done. simpl. lia.
Qed.

Lemma words_encode_le (cs : list N) (r : bool) :
  count_runs is_ascii_whitespace r (encode_str cs) <= length cs.
Proof.
  revert r. induction cs as [|c cs IH]; intros r; [done|]. rewrite encode_str_cons.
  destruct (encode_piece _ c ascii_only_whitespace) as [[b ->] | [Hne Hall]].
  - simpl. destruct (is_ascii_whitespace b); [specialize (IH false) | specialize (IH true)];
      destruct r; lia.
  - rewrite count_runs_app_run by done. specialize (IH true). simpl. destruct r; lia.
Qed.

End Iterators.
