(* ===== verification/Counters.v ===== *)
(** * The counters of [src/src/lib.rs] (lines 102-116)

    [get_size_in_bytes], [get_num_lines], [get_num_words] and
    [get_num_char], over the [core] iterators of [Iterators] and
    [Utf8.count_chars] ([Chars::count]).  The theorems give each count
    in closed form, relate the word count to the one-pass state machine
    of [wc], bound every count by the byte size and, on a [&str], the
    line and word counts by the character count, add the counts of
    concatenated texts, and give the character count of the encoding of
    a sequence of scalar values: its length. *)

From stdpp Require Import base list decidable.
From Stdlib Require Import Strings.Byte NArith Lia.
From S2P Require Import Prelude Utf8 Iterators.

Module Counters.
Import Utf8 Iterators.

Definition get_size_in_bytes (contents : bytes) : nat := length contents.

Definition get_num_lines (contents : bytes) : nat := length (lines contents).

Definition get_num_words (contents : bytes) : nat := length (split_ascii_whitespace contents).

Definition get_num_char (contents : bytes) : nat := count_chars contents.

(** Rewrite the line and word counts to their closed forms. *)
Ltac counters_closed_form :=
  unfold get_num_lines, lines, get_num_words, split_ascii_whitespace;
  rewrite ?length_map, ?length_split_inclusive, ?(proj1 (split_by_runs _ _)).


(** ** Lines *)

(** C1: [get_num_lines] counts the line feeds, plus one for a last line that
    does not end with a line feed: an empty input has no line, and a
    final terminator adds no empty line. *)
Theorem get_num_lines_spec (s : bytes) :
  get_num_lines s = count_if (fun b => bool_decide (b = LF)) s + open_tail LF s.
Proof. unfold get_num_lines, lines. rewrite length_map. apply length_split_inclusive. Qed.

(** ** Words *)

(** C2: [get_num_words] counts what the one-pass state machine of [wc]
    counts: the bytes outside ASCII whitespace that start a run. *)
Theorem get_num_words_count_words (s : bytes) : get_num_words s = count_words s.
Proof. apply split_by_runs. Qed.


(** ** Characters and bounds *)

(** C6: Every count is bounded by the byte size, so none overflows [usize]. *)
Theorem counts_le_size (s : bytes) :
  get_num_lines s <= get_size_in_bytes s /\
  2 * get_num_words s <= get_size_in_bytes s + 1 /\
  get_num_char s <= get_size_in_bytes s.
Proof.
  unfold get_size_in_bytes. counters_closed_form.
  split_and!; [apply lines_le_length | apply count_runs_bound | apply count_if_le_length].
Qed.

(** ** The counters together *)

(** C13: On a [&str], a line or a word holds at least one character: the line
    and word counts are at most the character count. *)
Theorem counts_le_chars (s : bytes) :
  well_formed s -> get_num_lines s <= get_num_char s /\ get_num_words s <= get_num_char s.
Proof.
  intros (cs & _ & ->). unfold get_num_char. rewrite count_chars_encode_str.
  unfold get_num_lines, lines, get_num_words, split_ascii_whitespace.
  rewrite length_map, (proj1 (split_by_runs _ _)).
  split; [apply lines_encode_le | apply words_encode_le].
Qed.

(** C16: The counts of a text ending with a line feed followed by another
    text are the sums of the counts of the two. *)
Theorem counts_concat (s t : bytes) :
  let s' := s ++ [LF] in
  get_num_lines (s' ++ t) = get_num_lines s' + get_num_lines t /\
  get_num_words (s' ++ t) = get_num_words s' + get_num_words t /\
  get_num_char (s' ++ t) = get_num_char s' + get_num_char t /\
  get_size_in_bytes (s' ++ t) = get_size_in_bytes s' + get_size_in_bytes t.
Proof.
  intros s'. subst s'. rewrite <- app_assoc. simpl app.
  unfold get_num_lines, lines, get_num_words, split_ascii_whitespace, get_num_char, count_chars,
    get_size_in_bytes.
  rewrite !length_map, !length_split_inclusive, !(proj1 (split_by_runs _ _)), !count_if_app,
    !open_tail_app_sep, !count_runs_app_sep, !length_app by reflexivity.
  cbn [count_if open_tail count_runs length]. rewrite bool_decide_eq_true_2 by done. simpl. lia.
Qed.

(** C5: Encoding scalar values gives a string that [str::from_utf8] accepts,
    that [chars()] decodes back to the values, and whose [get_num_char]
    is their number. *)
Theorem get_num_char_encode (cs : list N) :
  Forall (fun c => is_scalar c = true) cs ->
  from_utf8 (encode_str cs) = Ok (encode_str cs) /\
  chars (encode_str cs) = cs /\ get_num_char (encode_str cs) = length cs.
Proof.
  intros Hcs. unfold from_utf8, run_utf8_validation, get_num_char.
  rewrite validate_encode_str, chars_encode_str, count_chars_encode_str by done. done.
Qed.


Lemma counts_le_chars_witness :
  let cs := [0x61; 0xE9; 0x0A; 0x20AC; 0x20; 0x62]%N in
  let s := encode_str cs in
  well_formed s /\ (get_num_lines s <= get_num_char s /\ get_num_words s <= get_num_char s).
Proof.
  intros cs s. assert (Hs : well_formed s) by (exists cs; split; [repeat constructor | reflexivity]).
  split; [exact Hs | exact (counts_le_chars s Hs)].
Defined.

Lemma get_num_char_encode_witness :
  let cs := [0x61; 0xE9; 0x20AC; 0x1F600]%N in
  Forall (fun c => is_scalar c = true) cs /\
  (from_utf8 (encode_str cs) = Ok (encode_str cs) /\
   chars (encode_str cs) = cs /\ get_num_char (encode_str cs) = length cs).
Proof.
  intros cs. assert (Hcs : Forall (fun c => is_scalar c = true) cs) by (repeat constructor).
  split; [exact Hcs | exact (get_num_char_encode cs Hcs)].
Defined.

End Counters.
