(* ===== verification/CharCount.v ===== *)
(** * [core::str::count]: the word-at-a-time character count

    [Chars::count], which [get_num_char] calls, is [count_chars] of
    [core/src/str/count.rs]: below [USIZE_SIZE * UNROLL_INNER] bytes it is
    [char_count_general_case] (the byte loop [Utf8.count_chars]); above,
    [do_count_chars] splits the bytes with [align_to::<usize>()] into a
    head, machine words and a tail, and counts the non-continuation bytes
    of each word in parallel: [contains_non_continuation_byte] sets one
    bit per byte lane, [CHUNK_SIZE] words are added lane by lane, and
    [sum_bytes_in_usize] adds the eight lanes with one multiplication.

    The target is 64-bit and little-endian: a [usize] is a [Z] below
    [2^64], read from bytes by [le_word], and the arithmetic that can wrap
    is written with its wrap-around ([wadd], [wmul]).  [align_to] depends
    on the address of the string, which the program does not control: it
    is the parameter [offset], the length of the head.  The theorem
    [count_chars_fast_spec] shows that for every offset the routine
    computes the byte loop's count, with no lane overflowing and no
    addition wrapping. *)

From stdpp Require Import base list decidable.
From Stdlib Require Import Strings.Byte NArith ZArith Lia.
From S2P Require Import Prelude Utf8 Iterators Counters.

Module CharCount.
Import Utf8 Counters.

Local Open Scope Z_scope.

(** ** Machine words *)

Definition USIZE_SIZE : nat := 8.
Definition UNROLL_INNER : nat := 4.
Definition CHUNK_SIZE : nat := 192.

(** Wrapping [usize] arithmetic on a 64-bit target. *)
Definition wrap (z : Z) : Z := z mod 2 ^ 64.
Definition wadd (a b : Z) : Z := wrap (a + b).
Definition wmul (a b : Z) : Z := wrap (a * b).
Definition wnot (w : Z) : Z := Z.lxor w (Z.ones 64).

(** A little-endian word of byte lanes: [x0 + 256 * x1 + ...]. *)
Fixpoint le_z (lanes : list Z) : Z :=
  match lanes with
  | [] => 0
  | x :: r => x + 256 * le_z r
  end.

(** [usize::from_le_bytes]. *)
Definition le_word (bs : bytes) : Z := le_z ((fun b => Z.of_N (u8 b)) <$> bs).

(** [usize::repeat_u8(0x01)], [usize::repeat_u16(0x0001)], [usize::repeat_u16(0x00ff)]. *)
Definition LSB : Z := le_z [1; 1; 1; 1; 1; 1; 1; 1].
Definition LSB_SHORTS : Z := le_z [1; 0; 1; 0; 1; 0; 1; 0].
Definition SKIP_BYTES : Z := le_z [255; 0; 255; 0; 255; 0; 255; 0].

(** [contains_non_continuation_byte(w) = ((!w >> 7) | (w >> 6)) & LSB]. *)
Definition contains_non_continuation_byte (w : Z) : Z :=
  Z.land (Z.lor (Z.shiftr (wnot w) 7) (Z.shiftr w 6)) LSB.

(** [sum_bytes_in_usize]: the pair sums in 16-bit lanes, then their sum in
    the top lane by a wrapping multiplication. *)
Definition sum_bytes_in_usize (values : Z) : Z :=
  let pair_sum := wadd (Z.land values SKIP_BYTES) (Z.land (Z.shiftr values 8) SKIP_BYTES) in
  Z.shiftr (wmul pair_sum LSB_SHORTS) ((Z.of_nat USIZE_SIZE - 2) * 8).

(** ** Slices *)

(** [<[T]>::chunks(n)]: pieces of [n] elements, the last one shorter. *)
Fixpoint chunks_fuel {A} (n fuel : nat) (l : list A) : list (list A) :=
  match fuel, l with
  | O, _ | _, [] => []
  | S fuel', _ => take n l :: chunks_fuel n fuel' (drop n l)
  end.
Definition chunks {A} (n : nat) (l : list A) : list (list A) := chunks_fuel n (length l) l.

(** [<[T]>::as_chunks::<N>()]: the pieces of exactly [n] elements, and the
    remainder. *)
Definition as_chunks {A} (n : nat) (l : list A) : list (list A) * list A :=
  let k := (length l / n * n)%nat in (chunks n (take k l), drop k l).

(** [<[u8]>::align_to::<usize>()] when the first aligned address is
    [offset] bytes into the string: the head, the words, the tail. *)
Definition align_to (offset : nat) (s : bytes) : bytes * list Z * bytes :=
  if decide (length s < offset)%nat then (s, [], [])
  else
    let rest := drop offset s in
    let k := (length rest / USIZE_SIZE * USIZE_SIZE)%nat in
    (take offset s, le_word <$> chunks USIZE_SIZE (take k rest), drop k rest).

(** ** [count_chars] *)

(** [char_count_general_case] as a [usize]. *)
Definition char_count_general_case (s : bytes) : Z := Z.of_nat (count_chars s).

(** [for &word in words { counts += contains_non_continuation_byte(word) }]. *)
Definition add_word_counts (words : list Z) (counts : Z) : Z :=
  fold_left (fun c w => wadd c (contains_non_continuation_byte w)) words counts.

(** The [for chunk in body.chunks(CHUNK_SIZE)] loop, with its [break]
    after a chunk that has a remainder. *)
Fixpoint chunk_loop (cs : list (list Z)) (total : Z) : Z :=
  match cs with
  | [] => total
  | chunk :: rest =>
    let '(unrolled_chunks, remainder) := as_chunks UNROLL_INNER chunk in
    let counts := fold_left (fun c unrolled => add_word_counts unrolled c) unrolled_chunks 0 in
    let total := wadd total (sum_bytes_in_usize counts) in
    match remainder with
    | [] => chunk_loop rest total
    | _ :: _ => wadd total (sum_bytes_in_usize (add_word_counts remainder 0))
    end
  end.

Definition do_count_chars (offset : nat) (s : bytes) : Z :=
  let '(head, body, tail) := align_to offset s in
  if (bool_decide (body = []) || (USIZE_SIZE <? length head)%nat ||
      (USIZE_SIZE <? length tail)%nat)%bool
  then char_count_general_case s
  else chunk_loop (chunks CHUNK_SIZE body)
         (wadd (char_count_general_case head) (char_count_general_case tail)).

Definition count_chars_fast (offset : nat) (s : bytes) : Z :=
  if decide (length s < USIZE_SIZE * UNROLL_INNER)%nat then char_count_general_case s
  else do_count_chars offset s.

(** ** Byte lanes *)

Lemma testbit_lane (x y n : Z) :
  0 <= x < 256 -> 0 <= n ->
  Z.testbit (x + 256 * y) n = if n <? 8 then Z.testbit x n else Z.testbit y (n - 8).
Proof.
  intros Hx Hn. destruct (Z.ltb_spec n 8).
  - rewrite <- (Z.mod_pow2_bits_low (x + 256 * y) 8 n) by lia.
    change (2 ^ 8) with 256. f_equal. div_lia.
  - rewrite <- (Z.sub_add 8 n) at 1. rewrite <- Z.shiftr_spec by lia.
    rewrite Z.shiftr_div_pow2 by lia. change (2 ^ 8) with 256. f_equal. div_lia.
Qed.

Definition lanes_ok (l : list Z) : Prop := Forall (fun x => 0 <= x < 256) l.

(** Bit [n] of a word is bit [n mod 8] of lane [n / 8], and [false]
    past the last lane. *)
Lemma testbit_le_z (l : list Z) (n : Z) :
  lanes_ok l -> 0 <= n ->
  Z.testbit (le_z l) n = match l !! Z.to_nat (n / 8) with
                         | Some x => Z.testbit x (n mod 8)
                         | None => false
                         end.
Proof.
  intros Hl. revert n. induction Hl as [|x l Hx Hl IH]; intros n Hn.
  - simpl. by rewrite Z.testbit_0_l.
  - simpl le_z. rewrite testbit_lane by done. destruct (Z.ltb_spec n 8).
    + rewrite Z.div_small, Z.mod_small by lia. done.
    + rewrite IH by lia.
      assert (E : n / 8 = (n - 8) / 8 + 1) by div_lia.
      assert (Hd : 0 <= (n - 8) / 8) by (apply Z.div_pos; lia).
      rewrite E, Z2Nat.inj_add, Nat.add_1_r by lia. simpl.
      replace ((n - 8) mod 8) with (n mod 8) by div_lia. done.
Qed.

Lemma le_z_nonneg (l : list Z) : lanes_ok l -> 0 <= le_z l.
Proof. induction 1; simpl; lia. Qed.

Lemma le_z_bound (l : list Z) : lanes_ok l -> le_z l < 256 ^ Z.of_nat (length l).
Proof.
  induction 1 as [|x l Hx Hl IH]; simpl; [lia|].
  rewrite Nat2Z.inj_succ, Z.pow_succ_r by lia. lia.
Qed.

(** Lane-wise addition: exact, since lanes are only added. *)
Lemma le_z_add (l m : list Z) :
  length l = length m -> le_z l + le_z m = le_z (zip_with Z.add l m).
Proof.
  revert m. induction l as [|x l IH]; intros [|y m] Hlen; simpl in *; try lia.
  rewrite <- IH by lia. lia.
Qed.

(** ** [contains_non_continuation_byte] on one word *)

(** The lane it sets for a byte: [1] for a byte that is not a
    continuation byte. *)
Definition ncb (b : byte) : Z := if utf8_is_cont_byte b then 0 else 1.

Lemma ncb_bit0 (b : byte) :
  Z.testbit (ncb b) 0 = negb (Z.testbit (Z.of_N (u8 b)) 7) || Z.testbit (Z.of_N (u8 b)) 6.
Proof. destruct b; reflexivity. Qed.

Lemma testbit_01 (x r : Z) : x = 0 \/ x = 1 -> 0 < r -> Z.testbit x r = false.
Proof.
  intros [-> | ->] Hr; [apply Z.testbit_0_l|].
  change 1 with (2 ^ 0). rewrite Z.pow2_bits_eqb by lia. apply Z.eqb_neq. lia.
Qed.

Lemma ncb_01 (b : byte) : ncb b = 0 \/ ncb b = 1.
Proof. unfold ncb. destruct (utf8_is_cont_byte b); auto. Qed.

Lemma byte_lanes_ok (bs : bytes) : lanes_ok ((fun b => Z.of_N (u8 b)) <$> bs).
Proof.
  apply Forall_fmap, List.Forall_forall. intros b _. simpl. pose proof (u8_bound b). lia.
Qed.

Lemma ncb_lanes_ok (bs : bytes) : lanes_ok (ncb <$> bs).
Proof. apply Forall_fmap, List.Forall_forall. intros b _. simpl. destruct (ncb_01 b); lia. Qed.

Lemma lsb_lookup (k : nat) :
  [1; 1; 1; 1; 1; 1; 1; 1] !! k = if (k <? 8)%nat then Some 1 else None.
Proof. do 8 (destruct k as [|k]; [done|]). done. Qed.

(** In every lane, [contains_non_continuation_byte] sets [1] for a byte
    that is not a continuation byte and [0] for one that is. *)
Lemma cncb_word (bs : bytes) :
  length bs = 8%nat -> contains_non_continuation_byte (le_word bs) = le_z (ncb <$> bs).
Proof.
  intros Hlen. apply Z.bits_inj'. intros n Hn.
  assert (Hr : 0 <= n mod 8 < 8) by (apply Z.mod_pos_bound; lia).
  unfold contains_non_continuation_byte, wnot, LSB, le_word.
  rewrite Z.land_spec, Z.lor_spec, !Z.shiftr_spec, Z.lxor_spec by lia.
  rewrite !testbit_le_z by (lia || apply byte_lanes_ok || apply ncb_lanes_ok ||
                            (repeat constructor; lia)).
  rewrite !list_lookup_fmap, lsb_lookup.
  destruct (Nat.ltb_spec (Z.to_nat (n / 8)) 8) as [Hk | Hk].
  - destruct (lookup_lt_is_Some_2 bs (Z.to_nat (n / 8))) as [b Eb]; [lia|]. rewrite Eb. cbn -[Z.testbit ncb u8].
    destruct (decide (n mod 8 = 0)) as [Hr0 | Hr0].
    + replace ((n + 7) / 8) with (n / 8) by div_lia. replace ((n + 6) / 8) with (n / 8) by div_lia.
      replace ((n + 7) mod 8) with 7 by div_lia. replace ((n + 6) mod 8) with 6 by div_lia.
      rewrite Eb, Hr0, Z.ones_spec_low by div_lia. cbn -[Z.testbit ncb u8].
      rewrite ncb_bit0, xorb_true_r, andb_true_r. done.
    + assert (0 < n mod 8) by lia.
      rewrite (testbit_01 1 (n mod 8)), (testbit_01 (ncb b) (n mod 8)) by (auto using ncb_01).
      by rewrite andb_false_r.
  - rewrite (proj2 (lookup_ge_None bs (Z.to_nat (n / 8)))) by lia. cbn -[Z.testbit].
    by rewrite andb_false_r.
Qed.

(** ** [sum_bytes_in_usize] *)

Definition zsum (l : list Z) : Z := foldr Z.add 0 l.

Ltac lanes_split :=
  repeat match goal with H : Forall _ (_ :: _) |- _ => apply Forall_cons_1 in H as [? H] end.

Lemma testbit_255 (r : Z) : 0 <= r < 8 -> Z.testbit 255 r = true.
Proof. intros. change 255 with (Z.ones 8). apply Z.ones_spec_low. lia. Qed.

(** [values & SKIP_BYTES] keeps the even lanes. *)
Lemma land_skip_bytes (a0 a1 a2 a3 a4 a5 a6 a7 : Z) :
  lanes_ok [a0; a1; a2; a3; a4; a5; a6; a7] ->
  Z.land (le_z [a0; a1; a2; a3; a4; a5; a6; a7]) SKIP_BYTES = le_z [a0; 0; a2; 0; a4; 0; a6; 0].
Proof.
  intros Hl. assert (Hl' : lanes_ok [a0; 0; a2; 0; a4; 0; a6; 0]).
  { unfold lanes_ok in *. lanes_split. repeat constructor; lia. }
  apply Z.bits_inj'. intros n Hn. unfold SKIP_BYTES.
  assert (Hr : 0 <= n mod 8 < 8) by (apply Z.mod_pos_bound; lia).
  rewrite Z.land_spec, !testbit_le_z by (done || lia || (repeat constructor; lia)).
  destruct (Z.to_nat (n / 8)) as [|[|[|[|[|[|[|[|k]]]]]]]]; cbn -[Z.testbit];
    rewrite ?testbit_255, ?Z.testbit_0_l by lia; by rewrite ?andb_true_r, ?andb_false_r.
Qed.

(** [values >> 8] drops the first lane. *)
Lemma shiftr_lane (x : Z) (l : list Z) : 0 <= x < 256 -> Z.shiftr (le_z (x :: l)) 8 = le_z l.
Proof. intros. rewrite Z.shiftr_div_pow2 by lia. simpl le_z. change (2 ^ 8) with 256. div_lia. Qed.

(** The wrapping multiplication by [LSB_SHORTS] leaves the sum of the four
    16-bit lanes in the top lane, below [2^16] since every lane is a
    pair sum below [512]. *)
Lemma mul_lsb_shorts (p0 p1 p2 p3 : Z) :
  0 <= p0 < 512 -> 0 <= p1 < 512 -> 0 <= p2 < 512 -> 0 <= p3 < 512 ->
  Z.shiftr (wmul (p0 + 2 ^ 16 * p1 + 2 ^ 32 * p2 + 2 ^ 48 * p3) LSB_SHORTS) 48 = p0 + p1 + p2 + p3.
Proof.
  intros. unfold wmul, wrap, LSB_SHORTS. simpl le_z.
  rewrite <- (Z.mod_unique _ _ (p1 + p2 + p3 + 2 ^ 16 * (p2 + p3) + 2 ^ 32 * p3)
                (p0 + 2 ^ 16 * (p0 + p1) + 2 ^ 32 * (p0 + p1 + p2) + 2 ^ 48 * (p0 + p1 + p2 + p3)));
    [| lia | ring].
  rewrite Z.shiftr_div_pow2 by lia. div_lia.
Qed.

Lemma le_z_pairs (p0 p1 p2 p3 : Z) :
  le_z [p0; 0; p1; 0; p2; 0; p3; 0] = p0 + 2 ^ 16 * p1 + 2 ^ 32 * p2 + 2 ^ 48 * p3.
Proof. simpl. ring. Qed.

(** [sum_bytes_in_usize] adds the eight lanes of a word. *)
Lemma sum_bytes_spec (l : list Z) :
  length l = 8%nat -> lanes_ok l -> sum_bytes_in_usize (le_z l) = zsum l.
Proof.
  intros Hlen Hl.
  destruct l as [|a0 [|a1 [|a2 [|a3 [|a4 [|a5 [|a6 [|a7 [|]]]]]]]]]; try discriminate.
  assert (Hb : lanes_ok [a0; a1; a2; a3; a4; a5; a6; a7]) by done.
  unfold lanes_ok in Hl. lanes_split.
  unfold sum_bytes_in_usize. rewrite land_skip_bytes, shiftr_lane by done.
  replace (le_z [a1; a2; a3; a4; a5; a6; a7]) with (le_z [a1; a2; a3; a4; a5; a6; a7; 0])
    by (simpl; lia).
  rewrite land_skip_bytes by (repeat constructor; lia).
  unfold wadd, wrap. rewrite !le_z_pairs, Z.mod_small by lia.
  change ((Z.of_nat USIZE_SIZE - 2) * 8) with 48.
  replace (a0 + 2 ^ 16 * a2 + 2 ^ 32 * a4 + 2 ^ 48 * a6 + (a1 + 2 ^ 16 * a3 + 2 ^ 32 * a5 + 2 ^ 48 * a7))
    with (a0 + a1 + 2 ^ 16 * (a2 + a3) + 2 ^ 32 * (a4 + a5) + 2 ^ 48 * (a6 + a7)) by ring.
  rewrite mul_lsb_shorts by lia. simpl. lia.
Qed.

(** ** Counting a run of words *)

(** Words of eight bytes, as [align_to] cuts them. *)
Definition words8 (ws : list bytes) : Prop := Forall (fun bs => length bs = 8%nat) ws.

(** Lane [k]: how many of the words have a byte [k] that is not a
    continuation byte. *)
Fixpoint lane_counts (ws : list bytes) : list Z :=
  match ws with
  | [] => [0; 0; 0; 0; 0; 0; 0; 0]
  | bs :: rest => zip_with Z.add (ncb <$> bs) (lane_counts rest)
  end.

Lemma Forall_zip_add (P Q R : Z -> Prop) (l m : list Z) :
  length l = length m -> Forall P l -> Forall Q m -> (forall x y, P x -> Q y -> R (x + y)) ->
  Forall R (zip_with Z.add l m).
Proof.
  intros Hlen Hl. revert m Hlen. induction Hl as [|x l Hx Hl IH]; intros [|y m] Hlen Hm HR;
    simpl in *; try done. inversion Hm; subst. constructor; [by apply HR | apply IH; auto].
Qed.

Lemma zsum_zip_add (l m : list Z) :
  length l = length m -> zsum (zip_with Z.add l m) = zsum l + zsum m.
Proof.
  revert m. induction l as [|x l IH]; intros [|y m] Hlen; simpl in *; try lia.
  rewrite IH by lia. lia.
Qed.

Lemma zsum_ncb (bs : bytes) : zsum (ncb <$> bs) = Z.of_nat (count_chars bs).
Proof.
  induction bs as [|b bs IH]; [done|].
  change (zsum (ncb <$> b :: bs)) with (ncb b + zsum (ncb <$> bs)). rewrite IH.
  unfold count_chars. cbn [count_if]. unfold ncb. destruct (utf8_is_cont_byte b); simpl; lia.
Qed.

Lemma lane_counts_spec (ws : list bytes) :
  words8 ws ->
  length (lane_counts ws) = 8%nat /\
  Forall (fun x => 0 <= x <= Z.of_nat (length ws)) (lane_counts ws) /\
  zsum (lane_counts ws) = Z.of_nat (count_chars (concat ws)).
Proof.
  induction 1 as [|bs ws Hbs Hws (IHlen & IHb & IHs)].
  - split_and!; [done | repeat constructor; lia | done].
  - simpl lane_counts.
    assert (Hl : length (ncb <$> bs) = length (lane_counts ws)) by (rewrite length_fmap; lia).
    split_and!.
    + rewrite length_zip_with, length_fmap. lia.
    + eapply (Forall_zip_add (fun y => y = 0 \/ y = 1)); [exact Hl | | exact IHb |].
      * apply Forall_fmap, List.Forall_forall. intros b _. exact (ncb_01 b).
      * simpl. intros x y Hx Hy. destruct Hx; lia.
    + rewrite zsum_zip_add, zsum_ncb, IHs by done. unfold count_chars. simpl concat.
      rewrite count_if_app. lia.
Qed.

(** Adding the words of a run lane by lane: exact as long as no lane
    reaches [256]. *)
Lemma add_word_counts_spec (ws : list bytes) (L : list Z) :
  words8 ws -> length L = 8%nat ->
  Forall (fun x => 0 <= x /\ x + Z.of_nat (length ws) < 256) L ->
  add_word_counts (le_word <$> ws) (le_z L) = le_z L + le_z (lane_counts ws).
Proof.
  intros Hws. revert L. induction Hws as [|bs ws Hbs Hws IH]; intros L HL Hb; [simpl; lia|].
  set (L' := zip_with Z.add L (ncb <$> bs)).
  assert (HL' : length L' = 8%nat) by (unfold L'; rewrite length_zip_with, length_fmap; lia).
  assert (Hb' : Forall (fun x => 0 <= x /\ x + Z.of_nat (length ws) < 256) L').
  { eapply (Forall_zip_add _ (fun y => y = 0 \/ y = 1)); [rewrite length_fmap; lia | exact Hb | |].
    - apply Forall_fmap, List.Forall_forall. intros b _. exact (ncb_01 b).
    - simpl. intros x y Hx Hy. destruct Hy; lia. }
  assert (Hok : lanes_ok L').
  { eapply List.Forall_impl; [| exact Hb']. simpl. lia. }
  assert (Hw : wadd (le_z L) (contains_non_continuation_byte (le_word bs)) = le_z L').
  { rewrite cncb_word by done. unfold wadd, wrap. rewrite (le_z_add L) by (rewrite length_fmap; lia).
    apply Z.mod_small. pose proof (le_z_bound L' Hok). rewrite HL' in H. split; [by apply le_z_nonneg | lia]. }
  change (le_word <$> bs :: ws) with (le_word bs :: (le_word <$> ws)).
  unfold add_word_counts. cbn [fold_left]. rewrite Hw. fold (add_word_counts (le_word <$> ws) (le_z L')).
  rewrite IH by done. cbn [lane_counts]. unfold L'.
  destruct (lane_counts_spec ws Hws) as (Hlen & _).
  rewrite <- !le_z_add by (rewrite ?length_zip_with, ?length_fmap; lia). lia.
Qed.

(** The count of a run of fewer than [256] words, as [sum_bytes_in_usize]
    reads it from the lanes. *)
Lemma word_run_count (ws : list bytes) :
  words8 ws -> (length ws < 256)%nat ->
  sum_bytes_in_usize (add_word_counts (le_word <$> ws) 0) = Z.of_nat (count_chars (concat ws)).
Proof.
  intros Hws Hn. destruct (lane_counts_spec ws Hws) as (Hlen & Hb & Hs).
  pose proof (add_word_counts_spec ws [0; 0; 0; 0; 0; 0; 0; 0] Hws eq_refl) as E.
  change (le_z [0; 0; 0; 0; 0; 0; 0; 0]) with 0 in E. rewrite E by (repeat constructor; lia).
  rewrite Z.add_0_l, sum_bytes_spec, Hs by (done || (eapply List.Forall_impl; [| exact Hb]; simpl; lia)).
  done.
Qed.

(** ** Slices cut into chunks *)

Lemma chunks_fuel_concat {A} (n f : nat) (l : list A) :
  (0 < n)%nat -> (length l <= f)%nat -> concat (chunks_fuel n f l) = l.
Proof.
  intros Hn. revert l. induction f as [|f IH]; intros [|x l] Hl; simpl in *; try (done || lia).
  rewrite IH; [apply take_drop|]. rewrite length_drop. simpl. lia.
Qed.

(** Cutting a slice whose length is a multiple of [n] gives pieces of [n]. *)
Lemma chunks_fuel_exact {A} (n f m : nat) (l : list A) :
  (0 < n)%nat -> length l = (m * n)%nat -> Forall (fun c => length c = n) (chunks_fuel n f l).
Proof.
  intros Hn. revert l m. induction f as [|f IH]; intros [|x l] m Hl; simpl; try constructor.
  - rewrite length_take_le; [done|]. simpl in *. destruct m; lia.
  - apply (IH _ (m - 1)%nat). rewrite length_drop. simpl in *. destruct m; lia.
Qed.

Lemma fold_unrolled (us : list (list Z)) (c : Z) :
  fold_left (fun c u => add_word_counts u c) us c = add_word_counts (concat us) c.
Proof.
  revert c. induction us as [|u us IH]; intros c; [done|]. simpl. rewrite IH.
  unfold add_word_counts. by rewrite fold_left_app.
Qed.

Lemma count_concat_split (ws : list bytes) (n : nat) :
  count_chars (concat ws) = (count_chars (concat (take n ws)) + count_chars (concat (drop n ws)))%nat.
Proof. rewrite <- (take_drop n ws) at 1. unfold count_chars. by rewrite concat_app, count_if_app. Qed.

Lemma count_chars_le (s : bytes) : (count_chars s <= length s)%nat.
Proof. apply count_if_le_length. Qed.

(** The [body.chunks(CHUNK_SIZE)] loop counts every word: a chunk with a
    remainder is the last one, since only the last chunk is shorter than
    [CHUNK_SIZE], which is a multiple of [UNROLL_INNER]; so the [break]
    skips nothing. *)
Lemma chunk_loop_spec (f : nat) (ws : list bytes) (total : Z) :
  words8 ws -> (length ws <= f)%nat -> 0 <= total ->
  total + Z.of_nat (count_chars (concat ws)) < 2 ^ 64 ->
  chunk_loop (chunks_fuel CHUNK_SIZE f (le_word <$> ws)) total =
    total + Z.of_nat (count_chars (concat ws)).
Proof.
  revert ws total. induction f as [|f IH]; intros ws total Hws Hlen Ht Hb.
  { destruct ws; simpl in *; [unfold count_chars; simpl; lia | lia]. }
  destruct ws as [|w ws']; [unfold count_chars; simpl; lia|]. set (ws := w :: ws') in *.
  change (chunks_fuel CHUNK_SIZE (S f) (le_word <$> ws))
    with (take CHUNK_SIZE (le_word <$> ws) :: chunks_fuel CHUNK_SIZE f (drop CHUNK_SIZE (le_word <$> ws))).
  cbn [chunk_loop]. rewrite <- fmap_take, <- fmap_drop.
  set (c := take CHUNK_SIZE ws). unfold as_chunks. rewrite length_fmap.
  set (k := (length c / UNROLL_INNER * UNROLL_INNER)%nat).
  rewrite <- fmap_take, <- fmap_drop, fold_unrolled. unfold chunks.
  rewrite chunks_fuel_concat by (unfold UNROLL_INNER; lia).
  assert (Hc : words8 c) by (by apply Forall_take).
  assert (Hclen : (length c <= CHUNK_SIZE)%nat) by (unfold c; rewrite length_take; lia).
  rewrite word_run_count by (by apply Forall_take || (rewrite length_take; unfold CHUNK_SIZE in *; lia)).
  pose proof (count_concat_split ws CHUNK_SIZE) as H1. pose proof (count_concat_split c k) as H2.
  fold c in H1.
  unfold wadd at 1, wrap at 1. rewrite Z.mod_small by lia.
  destruct (le_word <$> drop k c) as [|z zs] eqn:Er.
  - assert (Hd : drop k c = []) by (apply (f_equal length) in Er; rewrite length_fmap in Er; by destruct (drop k c)).
    rewrite Hd in H2. change (count_chars (concat [])) with 0%nat in H2. rewrite IH.
    + lia.
    + by apply Forall_drop.
    + rewrite length_drop. simpl in *. lia.
    + lia.
    + lia.
  - rewrite <- Er, word_run_count by (by apply Forall_drop || (rewrite length_drop; unfold CHUNK_SIZE in *; lia)).
    assert (Hshort : (length ws < CHUNK_SIZE)%nat).
    { destruct (decide (length ws < CHUNK_SIZE)%nat) as [|Hge]; [done|].
      assert (Hc192 : length c = CHUNK_SIZE) by (unfold c; rewrite length_take_le; lia).
      unfold k in Er. rewrite Hc192, drop_ge in Er by (rewrite Hc192; done). discriminate. }
    rewrite (drop_ge ws) in H1 by lia. change (count_chars (concat [])) with 0%nat in H1.
    unfold wadd, wrap. rewrite (Z.mod_small (total + _)) by lia. rewrite Z.mod_small by lia. lia.
Qed.

(** ** The whole routine *)

(** [align_to] cuts a string into a head, words of eight bytes and a tail
    that together are the string. *)
Lemma align_to_split (offset : nat) (s : bytes) :
  (offset <= length s)%nat ->
  let rest := drop offset s in
  let k := (length rest / USIZE_SIZE * USIZE_SIZE)%nat in
  words8 (chunks USIZE_SIZE (take k rest)) /\
  concat (chunks USIZE_SIZE (take k rest)) = take k rest /\
  count_chars s = (count_chars (take offset s) + count_chars (take k rest) +
                   count_chars (drop k rest))%nat.
Proof.
  intros Hoff rest k.
  assert (Hk : length (take k rest) = k)
    by (apply length_take_le; unfold k; rewrite Nat.mul_comm; apply Nat.Div0.mul_div_le).
  split_and!.
  - unfold chunks. apply (chunks_fuel_exact _ _ (length rest / USIZE_SIZE)); [unfold USIZE_SIZE; lia|].
    rewrite Hk. done.
  - unfold chunks. apply chunks_fuel_concat; [unfold USIZE_SIZE; lia | done].
  - unfold count_chars. rewrite <- (take_drop offset s) at 1. fold rest.
    rewrite <- (take_drop k rest) at 1. rewrite !count_if_app. lia.
Qed.

(** C7: The word-at-a-time [count_chars] that [chars().count()] runs
    computes [get_num_char] on every string a [usize] can measure,
    wherever the string lies in memory (for every head length of
    [align_to]): no byte lane of [counts] overflows, [sum_bytes_in_usize]
    adds the lanes exactly, and the [break] after a chunk with a
    remainder skips no word. *)
Theorem get_num_char_fast (offset : nat) (s : bytes) :
  Z.of_nat (length s) < 2 ^ 64 -> count_chars_fast offset s = Z.of_nat (get_num_char s).
Proof.
  intros Hs. unfold get_num_char, count_chars_fast, do_count_chars, char_count_general_case.
  case_decide; [done|]. unfold align_to. case_decide as Hoff; [done|].
  destruct (align_to_split offset s) as (Hw & Hc & Hcount); [lia|].
  revert Hw Hc Hcount. cbv zeta.
  generalize (length (drop offset s) / USIZE_SIZE * USIZE_SIZE)%nat. intros k Hw Hc Hcount.
  generalize dependent (chunks USIZE_SIZE (take k (drop offset s))). intros bss Hw Hc.
  destruct (_ || _)%bool; [done|].
  pose proof (count_chars_le s).
  unfold chunks. rewrite length_fmap, chunk_loop_spec, Hc; [| done | lia | | ].
  - unfold wadd, wrap. rewrite Z.mod_small by lia. lia.
  - unfold wadd, wrap. apply Z.mod_pos_bound. lia.
  - unfold wadd, wrap. rewrite Z.mod_small by lia. rewrite Hc. lia.
Qed.

(** ** Witnesses *)

Lemma get_num_char_fast_witness :
  let s := encode_str (map (fun k => 0x61 + N.of_nat k mod 3 * 0x1F5A0)%N (seq 0 40)) in
  Z.of_nat (length s) < 2 ^ 64 /\ count_chars_fast 5 s = Z.of_nat (get_num_char s).
Proof.
  intros s. assert (Hs : Z.of_nat (length s) < 2 ^ 64) by (vm_compute; reflexivity).
  split; [exact Hs | exact (get_num_char_fast 5 s Hs)].
Defined.

End CharCount.




