(* ===== verification/Utf8Fast.v ===== *)
(** * The validator of [str::from_utf8] with its ASCII fast path

    [core::str::validations::run_utf8_validation] walks the bytes by
    index.  A byte of [0x80] or more starts a multi-byte sequence,
    checked as in [Utf8.validate_from].  On an ASCII byte, when the index
    is a multiple of the word size away from the first aligned address
    ([align.wrapping_sub(index) % USIZE_BYTES == 0], with [align] the
    [align_offset] of the slice, [usize::MAX] when unknown), the loop
    reads two words at a time while neither has a byte with its top bit
    set ([contains_nonascii]) and then steps over the remaining ASCII
    bytes one by one.  [align] depends on the address of the bytes,
    which the program does not control: it is a parameter.

    [run_utf8_validation_fast_spec] shows that for every [align] this
    loop returns what the byte loop [Utf8.run_utf8_validation] returns,
    the error and its [valid_up_to] included: the skipped blocks are
    ASCII, over which the byte loop only advances.  The outer loop is
    given [len] steps of fuel, which is enough since every iteration
    advances the index. *)

From stdpp Require Import base list decidable.
From Stdlib Require Import Strings.Byte NArith ZArith Lia.
From S2P Require Import Prelude Utf8 Iterators Counters CharCount.

Module Utf8Fast.
Import Utf8 CharCount.

(** ** The loop *)

Definition USIZE_BYTES : nat := 8.
Definition usize_MAX : Z := (2 ^ 64 - 1)%Z.

(** [usize::repeat_u8(0x80)]. *)
Definition NONASCII_MASK : Z := le_z [128; 128; 128; 128; 128; 128; 128; 128]%Z.

(** [contains_nonascii(x) = (x & NONASCII_MASK) != 0]. *)
Definition contains_nonascii (x : Z) : bool := negb (Z.land x NONASCII_MASK =? 0)%Z.

(** [*(ptr.add(i) as *const usize)]: the little-endian word at [i]. *)
Definition load_usize (v : bytes) (i : nat) : Z := le_word (take USIZE_BYTES (drop i v)).

(** [while index < blocks_end { ... if zu || zv { break; } index += ascii_block_size; }] *)
Fixpoint skip_blocks (fuel : nat) (v : bytes) (blocks_end index : nat) : nat :=
  match fuel with
  | O => index
  | S fuel' =>
    if decide (index < blocks_end) then
      let zu := contains_nonascii (load_usize v index) in
      let zv := contains_nonascii (load_usize v (index + USIZE_BYTES)) in
      if zu || zv then index else skip_blocks fuel' v blocks_end (index + 2 * USIZE_BYTES)
    else index
  end.

(** [while index < len && v[index] < 128 { index += 1; }] *)
Fixpoint skip_ascii (fuel : nat) (v : bytes) (index : nat) : nat :=
  match fuel with
  | O => index
  | S fuel' =>
    match v !! index with
    | Some b => if (u8 b <? 128)%N then skip_ascii fuel' v (S index) else index
    | None => index
    end
  end.

(** The outer [while index < len] loop from [index]; [v !! index = None]
    is [index >= len].  [next!()] is the lookup of the following index,
    [None] past the end ([err!(None)]). *)
Fixpoint validate_loop (fuel : nat) (align : Z) (v : bytes) (index : nat) : result unit Utf8Error :=
  match fuel with
  | O => Ok tt
  | S fuel' =>
    let len := length v in
    let ascii_block_size := (2 * USIZE_BYTES)%nat in
    let blocks_end := if decide (ascii_block_size <= len) then (len - ascii_block_size + 1)%nat else O in
    match v !! index with
    | None => Ok tt
    | Some first =>
      let old_offset := index in
      let err l := Err {| valid_up_to := old_offset; error_len := l |} in
      if (128 <=? u8 first)%N then
        match utf8_char_width first with
        | 2%nat =>
          match v !! (index + 1)%nat with
          | None => err None
          | Some b => if not_cont b then err (Some 1%nat) else validate_loop fuel' align v (index + 2)
          end
        | 3%nat =>
          match v !! (index + 1)%nat with
          | None => err None
          | Some b =>
            if negb (second_ok3 first b) then err (Some 1%nat) else
            match v !! (index + 2)%nat with
            | None => err None
            | Some c => if not_cont c then err (Some 2%nat) else validate_loop fuel' align v (index + 3)
            end
          end
        | 4%nat =>
          match v !! (index + 1)%nat with
          | None => err None
          | Some b =>
            if negb (second_ok4 first b) then err (Some 1%nat) else
            match v !! (index + 2)%nat with
            | None => err None
            | Some c =>
              if not_cont c then err (Some 2%nat) else
              match v !! (index + 3)%nat with
              | None => err None
              | Some d => if not_cont d then err (Some 3%nat) else validate_loop fuel' align v (index + 4)
              end
            end
          end
        | _ => err (Some 1%nat)
        end
      else if (bool_decide (align <> usize_MAX) &&
               (wrap (align - Z.of_nat index) mod Z.of_nat USIZE_BYTES =? 0)%Z)%bool then
        let index := skip_blocks len v blocks_end index in
        let index := skip_ascii len v index in
        validate_loop fuel' align v index
      else validate_loop fuel' align v (S index)
    end
  end.

Definition run_utf8_validation_fast (align : Z) (v : bytes) : result unit Utf8Error :=
  validate_loop (length v) align v 0.

(** [str::from_utf8] with the validator of [core]. *)
Definition from_utf8_fast (align : Z) (v : bytes) : result bytes Utf8Error :=
  match run_utf8_validation_fast align v with
  | Ok _ => Ok v
  | Err e => Err e
  end.

(** ** ASCII spans *)

Definition is_ascii (b : byte) : Prop := (u8 b < 128)%N.

(** The bytes from [i] to [j] are ASCII. *)
Definition ascii_span (v : bytes) (i j : nat) : Prop :=
  (i <= j <= length v)%nat /\ Forall is_ascii (take (j - i) (drop i v)).

Lemma ascii_span_refl (v : bytes) (i : nat) : (i <= length v)%nat -> ascii_span v i i.
Proof. intros Hi. split; [lia|]. rewrite Nat.sub_diag. constructor. Qed.

Lemma ascii_span_trans (v : bytes) (i j k : nat) :
  ascii_span v i j -> ascii_span v j k -> ascii_span v i k.
Proof.
  intros [Hij Hl] [Hjk Hr]. split; [lia|].
  replace (k - i)%nat with ((j - i) + (k - j))%nat by lia.
  rewrite <- take_take_drop, drop_drop. replace (i + (j - i))%nat with j by lia.
  by apply Forall_app.
Qed.

(** The byte loop steps over ASCII bytes one at a time. *)
Lemma validate_from_ascii (i : nat) (l r : bytes) :
  Forall is_ascii l -> validate_from i (l ++ r) = validate_from (i + length l) r.
Proof.
  intros Hl. revert i. induction Hl as [|b l Hb _ IH]; intros i; simpl.
  - by rewrite Nat.add_0_r.
  - unfold is_ascii in Hb. destruct (N.leb_spec 128 (u8 b)); [lia|].
    rewrite IH. f_equal. lia.
Qed.

Lemma ascii_span_validate (v : bytes) (i j : nat) :
  ascii_span v i j -> validate_from i (drop i v) = validate_from j (drop j v).
Proof.
  intros [Hij Hl]. rewrite <- (take_drop (j - i) (drop i v)), validate_from_ascii by done.
  rewrite drop_drop, length_take, length_drop.
  replace (i + (j - i))%nat with j by lia. f_equal. lia.
Qed.

(** ** Words without a non-ASCII byte *)

Lemma testbit_7_ascii (x : Z) : (0 <= x < 256)%Z -> Z.testbit x 7 = false -> (x < 128)%Z.
Proof.
  intros Hx Hb. pose proof (Z.testbit_spec' x 7 ltac:(lia)) as Hs.
  rewrite Hb in Hs. change (2 ^ 7)%Z with 128%Z in Hs. simpl in Hs. div_lia.
Qed.

Lemma nonascii_mask_bit (k : nat) : (k < 8)%nat -> Z.testbit NONASCII_MASK (8 * Z.of_nat k + 7) = true.
Proof.
  intros Hk. unfold NONASCII_MASK.
  rewrite testbit_le_z by (repeat constructor; lia).
  replace (Z.to_nat ((8 * Z.of_nat k + 7) / 8)) with k by (zify; div_lia).
  replace ((8 * Z.of_nat k + 7) mod 8)%Z with 7%Z by div_lia.
  do 8 (destruct k as [|k]; [reflexivity|]). lia.
Qed.

(** A word of at most eight bytes in which [contains_nonascii] finds
    nothing has ASCII bytes only. *)
Lemma contains_nonascii_false (ws : bytes) :
  (length ws <= 8)%nat -> contains_nonascii (le_word ws) = false -> Forall is_ascii ws.
Proof.
  intros Hlen Hc. apply Forall_lookup. intros k b Hk.
  pose proof (lookup_lt_Some _ _ _ Hk) as Hlt.
  unfold contains_nonascii in Hc. apply negb_false_iff, Z.eqb_eq in Hc.
  assert (Hbit : Z.testbit (Z.land (le_word ws) NONASCII_MASK) (8 * Z.of_nat k + 7) = false)
    by (rewrite Hc; apply Z.testbit_0_l).
  rewrite Z.land_spec, nonascii_mask_bit, andb_true_r in Hbit by lia.
  unfold le_word in Hbit. rewrite testbit_le_z in Hbit by (apply byte_lanes_ok || lia).
  replace (Z.to_nat ((8 * Z.of_nat k + 7) / 8)) with k in Hbit by (zify; div_lia).
  replace ((8 * Z.of_nat k + 7) mod 8)%Z with 7%Z in Hbit by div_lia.
  rewrite list_lookup_fmap, Hk in Hbit. simpl in Hbit.
  pose proof (u8_bound b). unfold is_ascii. apply testbit_7_ascii in Hbit; lia.
Qed.

(** ** The skipping loops *)

Lemma ascii_span_one (v : bytes) (i : nat) (b : byte) :
  v !! i = Some b -> is_ascii b -> ascii_span v i (S i).
Proof.
  intros Hb Ha. pose proof (lookup_lt_Some _ _ _ Hb). split; [lia|].
  rewrite (drop_S _ _ _ Hb). replace (S i - i)%nat with 1%nat by lia. by repeat constructor.
Qed.

(** Two words in which [contains_nonascii] finds nothing are sixteen
    ASCII bytes. *)
Lemma ascii_span_block (v : bytes) (i : nat) :
  (i + 2 * USIZE_BYTES <= length v)%nat ->
  contains_nonascii (load_usize v i) = false ->
  contains_nonascii (load_usize v (i + USIZE_BYTES)) = false ->
  ascii_span v i (i + 2 * USIZE_BYTES).
Proof.
  unfold load_usize, USIZE_BYTES. intros Hlen Hu Hv. split; [lia|].
  replace (i + 2 * 8 - i)%nat with (8 + 8)%nat by lia.
  rewrite <- take_take_drop, drop_drop.
  apply Forall_app; split; apply contains_nonascii_false; rewrite ?length_take; (lia || done).
Qed.

Lemma skip_blocks_span (fuel : nat) (v : bytes) (blocks_end index : nat) :
  (blocks_end + 2 * USIZE_BYTES <= length v + 1 \/ blocks_end = 0)%nat -> (index <= length v)%nat ->
  ascii_span v index (skip_blocks fuel v blocks_end index).
Proof.
  intros Hbe. revert index. induction fuel as [|fuel IH]; intros index Hi; simpl.
  { by apply ascii_span_refl. }
  case_decide; [|by apply ascii_span_refl].
  destruct (contains_nonascii (load_usize v index)) eqn:Hu; [by apply ascii_span_refl|].
  destruct (contains_nonascii (load_usize v (index + USIZE_BYTES))) eqn:Hv; [by apply ascii_span_refl|].
  assert (index + 2 * USIZE_BYTES <= length v)%nat by (unfold USIZE_BYTES in *; lia).
  eapply ascii_span_trans; [by apply ascii_span_block | apply IH; unfold USIZE_BYTES in *; lia].
Qed.

Lemma skip_ascii_span (fuel : nat) (v : bytes) (index : nat) :
  (index <= length v)%nat -> ascii_span v index (skip_ascii fuel v index).
Proof.
  revert index. induction fuel as [|fuel IH]; intros index Hi; simpl; [by apply ascii_span_refl|].
  destruct (v !! index) as [b|] eqn:Hb; [|by apply ascii_span_refl].
  destruct (N.ltb_spec (u8 b) 128); [|by apply ascii_span_refl].
  pose proof (lookup_lt_Some _ _ _ Hb).
  eapply ascii_span_trans; [by apply (ascii_span_one v index b) | apply IH; lia].
Qed.

(** The fast path advances: the byte at [index] is ASCII, so the byte
    loop after the word loop steps over it if the word loop did not. *)
Lemma fast_path_advances (v : bytes) (blocks_end index : nat) (b : byte) :
  (blocks_end + 2 * USIZE_BYTES <= length v + 1 \/ blocks_end = 0)%nat ->
  v !! index = Some b -> is_ascii b ->
  let j := skip_ascii (length v) v (skip_blocks (length v) v blocks_end index) in
  ascii_span v index j /\ (index < j)%nat.
Proof.
  intros Hbe Hb Ha j. pose proof (lookup_lt_Some _ _ _ Hb) as Hi.
  pose proof (skip_blocks_span (length v) v blocks_end index Hbe ltac:(lia)) as Hs.
  pose proof (proj2 (proj1 Hs)) as Hk.
  split; [eapply ascii_span_trans; [exact Hs | by apply skip_ascii_span]|].
  destruct (decide (skip_blocks (length v) v blocks_end index = index)) as [Heq|Hne].
  - subst j. rewrite Heq. destruct (length v) as [|n] eqn:Hlen; [lia|]. simpl. rewrite Hb.
    unfold is_ascii in Ha. destruct (N.ltb_spec (u8 b) 128); [|lia].
    pose proof (skip_ascii_span n v (S index) ltac:(lia)) as [? _]. lia.
  - pose proof (skip_ascii_span (length v) v _ Hk) as [? _]. destruct Hs as [? _]. lia.
Qed.

(** ** The outer loop is the byte loop *)

Lemma blocks_end_ok (len : nat) :
  let be := if decide (2 * USIZE_BYTES <= len)%nat then (len - 2 * USIZE_BYTES + 1)%nat else O in
  (be + 2 * USIZE_BYTES <= len + 1 \/ be = 0)%nat.
Proof. simpl. case_decide; lia. Qed.

Lemma validate_loop_spec (fuel : nat) (align : Z) (v : bytes) (index : nat) :
  (length v - index <= fuel)%nat -> (index <= length v)%nat ->
  validate_loop fuel align v index = validate_from index (drop index v).
Proof.
  revert index. induction fuel as [|fuel IH]; intros index Hf Hi.
  { by rewrite drop_ge by lia. }
  cbn [validate_loop]. pose proof (blocks_end_ok (length v)) as Hbe. cbv zeta in Hbe |- *.
  destruct (v !! index) as [first|] eqn:E.
  2: { by rewrite drop_ge by (by apply lookup_ge_None). }
  pose proof (lookup_lt_Some _ _ _ E) as Hlt.
  destruct (N.leb_spec 128 (u8 first)) as [Hhi|Hlo].
  - rewrite (drop_S _ _ _ E). cbn [validate_from].
    destruct (N.leb_spec 128 (u8 first)); [|lia].
    assert (Hl : forall k, v !! (index + S k)%nat = drop (S index) v !! k)
      by (intros k; rewrite lookup_drop; f_equal; lia).
    assert (Hd : forall k, drop (index + S k) v = drop k (drop (S index) v))
      by (intros k; rewrite drop_drop; f_equal; lia).
    assert (IHk : forall k, (index + S k <= length v)%nat ->
              validate_loop fuel align v (index + S k) = validate_from (index + S k) (drop k (drop (S index) v)))
      by (intros k Hk; rewrite IH, Hd by lia; done).
    pose proof (length_drop v (S index)) as Hlen.
    rewrite !Hl. destruct (drop (S index) v) as [|b [|c [|d r4]]]; simpl in Hlen; cbn -[validate_from validate_loop];
      repeat case_match; try done; rewrite IHk by lia; done.
  - destruct (_ && _)%bool.
    + destruct (fast_path_advances v _ index first Hbe E Hlo) as [Hs Hj].
      pose proof (proj2 (proj1 Hs)).
      rewrite IH by lia. symmetry. by apply ascii_span_validate.
    + rewrite IH by lia. symmetry. by apply ascii_span_validate, (ascii_span_one v index first).
Qed.

(** For every alignment of the bytes, the validator with the fast path
    returns what the byte loop returns. *)
Lemma run_utf8_validation_fast_spec (align : Z) (v : bytes) :
  run_utf8_validation_fast align v = run_utf8_validation v.
Proof. unfold run_utf8_validation_fast, run_utf8_validation. apply validate_loop_spec; lia. Qed.

End Utf8Fast.
