(* ===== verification/Config.v ===== *)
(** * Argument parsing: [Flag] and [Config::build]

    [src/src/lib.rs], lines 5-77.  [Flag::from_str] maps the four flag
    tokens (and the empty string) to a [Flag]; [Config::build] reads the
    argument vector ([args[0]] is the program name) and returns a
    [Config] or one of three error messages.  The theorems state the
    contract of the specification (section 4.1) as an inductive relation
    [resolves] and show that [build] implements it on every argument
    vector without an empty argument, and that on an empty argument the
    code departs from it. *)

From stdpp Require Import base list decidable sets.
From Stdlib Require Import Strings.Byte Lia.
From S2P Require Import Prelude.

(** ** Data ([enum Flag], [struct Config]) *)

Inductive Flag := Default | Size | Line | Word | Char.

#[export] Instance Flag_eq_dec : EqDecision Flag.
Proof. solve_decision. Defined.

Module Flag.
  (** [Flag::from_str]. *)
Definition from_str (s : bytes) : option Flag :=
    if decide (s = bs "-l") then Some Line
    else if decide (s = bs "-c") then Some Size
    else if decide (s = bs "-w") then Some Word
    else if decide (s = bs "-m") then Some Char
    else if decide (s = bs "") then Some Default
    else None.

Lemma from_str_empty_is_Some : is_Some (from_str []).
  Proof. by eexists. Qed.
End Flag.

Record Config := {
  file_path : bytes;
  command : Flag;
  is_stdin : bool
}.

#[export] Instance Config_eq_dec : EqDecision Config.
Proof.
  intros [p1 c1 s1] [p2 c2 s2].
  destruct (decide (p1 = p2)), (decide (c1 = c2)), (decide (s1 = s2)); subst;
    [left; done | right; congruence ..].
Defined.

(** ** [Config::build] *)

Definition build (args : list bytes) : result Config bytes :=
  if decide (length args < 2) then Err (bs "Not enough arguments")
  else if decide (length args = 2) then
    let argument := nth 1 args [] in
    let potential_flag := Flag.from_str argument in
    match potential_flag with
    | Some flag => Ok {| file_path := []; command := flag; is_stdin := true |}
    | None =>
      Ok {| file_path := argument;
            command := unwrap (Flag.from_str []) Flag.from_str_empty_is_Some;
            is_stdin := false |}
    end
  else if decide (length args = 3) then
    let flag := nth 1 args [] in
    let file_path := nth 2 args [] in
    let command_flag := Flag.from_str flag in
    match command_flag with
    | Some command_flag => Ok {| file_path := file_path; command := command_flag; is_stdin := false |}
    | None => Err (bs "Flag not recognized")
    end
  else Err (bs "Too many arguments").

(** The three messages of [Config::build]. *)
Definition build_messages : list bytes :=
  [bs "Not enough arguments"; bs "Flag not recognized"; bs "Too many arguments"].

(** ** The contract of the specification (section 4.1) *)

(** The flag tokens of the specification and the modes they select. *)
Definition flag_table : list (bytes * Flag) :=
  [(bs "-l", Line); (bs "-c", Size); (bs "-w", Word); (bs "-m", Char)].

Definition spec_flag (s : bytes) : option Flag :=
  match List.filter (fun '(t, _) => bool_decide (t = s)) flag_table with
  | (_, f) :: _ => Some f
  | [] => None
  end.

Definition stdin_config (f : Flag) : Config :=
  {| file_path := []; command := f; is_stdin := true |}.
Definition file_config (f : Flag) (path : bytes) : Config :=
  {| file_path := path; command := f; is_stdin := false |}.

(** [resolves args r]: the specification allows the outcome [r] for the
    argument vector [args] (program name first). *)
Inductive resolves : list bytes -> result Config bytes -> Prop :=
| resolves_insufficient args :
    length args < 2 -> resolves args (Err (bs "Not enough arguments"))
| resolves_stdin prog a f :
    spec_flag a = Some f -> resolves [prog; a] (Ok (stdin_config f))
| resolves_path prog a :
    spec_flag a = None -> resolves [prog; a] (Ok (file_config Default a))
| resolves_flag_path prog a path f :
    spec_flag a = Some f -> resolves [prog; a; path] (Ok (file_config f path))
| resolves_unrecognized prog a path :
    spec_flag a = None -> resolves [prog; a; path] (Err (bs "Flag not recognized"))
| resolves_too_many args :
    3 < length args -> resolves args (Err (bs "Too many arguments")).

Lemma resolves_functional (args : list bytes) (r1 r2 : result Config bytes) :
  resolves args r1 -> resolves args r2 -> r1 = r2.
Proof.
  intros H1 H2. destruct H1; inversion H2; simplify_eq/=; try lia; congruence.
Qed.

(** On a non-empty token, [Flag::from_str] is the table of the
    specification. *)
Lemma from_str_spec (s : bytes) : s <> [] -> Flag.from_str s = spec_flag s.
Proof.
  intros Hs. unfold Flag.from_str, spec_flag, flag_table. cbn [List.filter].
  repeat case_bool_decide; repeat case_decide; subst; done.
Qed.

Lemma build_err_message (args : list bytes) (msg : bytes) :
  build args = Err msg -> msg ∈ build_messages.
Proof.
  unfold build, build_messages. intros Hb.
  repeat case_decide; try case_match; simplify_eq; set_solver.
Qed.

Lemma build_resolves (args : list bytes) :
  Forall (fun a => a <> []) (drop 1 args) -> resolves args (build args).
Proof.
  intros Hne. unfold build.
  destruct args as [|prog [|a [|path [|x rest]]]]; simpl;
    try (apply resolves_insufficient; simpl; lia).
  - inversion Hne as [|? ? Ha]; subst. rewrite from_str_spec by done.
    destruct (spec_flag a) eqn:E; [by apply resolves_stdin | by apply resolves_path].
  - inversion Hne as [|? ? Ha]; subst. rewrite from_str_spec by done.
    destruct (spec_flag a) eqn:E;
      [by apply resolves_flag_path | by apply resolves_unrecognized].
  - apply resolves_too_many. simpl. lia.
Qed.

(** C3: [Config::build] is exactly the contract of the specification on every
    argument vector whose arguments are not empty: its result is the one
    outcome the contract allows. *)
Theorem build_iff_resolves (args : list bytes) (r : result Config bytes) :
  Forall (fun a => a <> []) (drop 1 args) -> (resolves args r <-> build args = r).
Proof.
  intros Hne. pose proof (build_resolves args Hne).
  split; [intros Hr; by eapply resolves_functional | by intros <-].
Qed.

(** C14: The shape of every configuration [build] returns: a standard-input
    configuration has the empty label, comes from a single argument and
    carries that argument's flag; a file configuration reads the last
    argument of two or three. *)
Theorem build_config_shape (args : list bytes) (cfg : Config) :
  build args = Ok cfg ->
  (is_stdin cfg = true /\ file_path cfg = [] /\ length args = 2 /\
     Flag.from_str (nth 1 args []) = Some (command cfg)) \/
  (is_stdin cfg = false /\ List.last args [] = file_path cfg /\
     (length args = 2 \/ length args = 3)).
Proof.
  unfold build. destruct args as [|prog [|a [|path [|x rest]]]]; simpl; try discriminate;
    destruct (Flag.from_str a) eqn:E; intros Hb; simplify_eq/=; naive_solver.
Qed.

(** C8: The three errors of [build], each with the arguments that cause it. *)
Theorem build_error (args : list bytes) (e : bytes) :
  build args = Err e ->
  (length args < 2 /\ e = bs "Not enough arguments") \/
  (length args = 3 /\ Flag.from_str (nth 1 args []) = None /\ e = bs "Flag not recognized") \/
  (3 < length args /\ e = bs "Too many arguments").
Proof.
  unfold build. intros Hb.
  repeat case_decide; simplify_eq/=; try (left; done).
  - by destruct (Flag.from_str _).
  - destruct (Flag.from_str _) eqn:E; simplify_eq/=. right; left. done.
  - right; right. split; [lia | done].
Qed.

(** ** Witnesses *)

Lemma build_iff_resolves_witness :
  let args := [bs "wc"; bs "-w"; bs "notes.txt"] in
  let r := Ok (file_config Word (bs "notes.txt")) in
  Forall (fun a => a <> []) (drop 1 args) /\ (resolves args r <-> build args = r).
Proof.
  intros args r. assert (Hne : Forall (fun a => a <> []) (drop 1 args))
    by (repeat constructor; discriminate).
  split; [exact Hne | apply build_iff_resolves; exact Hne].
Defined.

Lemma build_config_shape_witness :
  let args := [bs "wc"; bs "-l"] in
  let cfg := stdin_config Line in
  build args = Ok cfg /\
  ((is_stdin cfg = true /\ file_path cfg = [] /\ length args = 2 /\
      Flag.from_str (nth 1 args []) = Some (command cfg)) \/
   (is_stdin cfg = false /\ List.last args [] = file_path cfg /\
      (length args = 2 \/ length args = 3))).
Proof.
  intros args cfg. assert (Hb : build args = Ok cfg) by reflexivity.
  split; [exact Hb | exact (build_config_shape args cfg Hb)].
Defined.

Lemma build_error_witness :
  let args := [bs "wc"; bs "a"; bs "b"; bs "c"] in
  let e := bs "Too many arguments" in
  build args = Err e /\
  ((length args < 2 /\ e = bs "Not enough arguments") \/
   (length args = 3 /\ Flag.from_str (nth 1 args []) = None /\ e = bs "Flag not recognized") \/
   (3 < length args /\ e = bs "Too many arguments")).
Proof.
  intros args e. split; [reflexivity|]. apply build_error. reflexivity.
Defined.
