(* ===== verification/Format.v ===== *)
(** * Decimal printing of [usize]: [core::fmt::num]

    Every [println!] of [run] prints its counts with [Display for usize],
    which on a 64-bit target is [fmt_u64]: it fills a buffer from the end,
    four digits per step of its [while n >= 10000] loop and then two, one
    or two more, copying pairs of digits out of the table
    [DEC_DIGITS_LUT].  The theorems show that [fmt_u64 n] is the decimal
    representation of [n]: digits only, no leading zero, reading back to
    [n]; and that this representation is unique, so [fmt_u64] is
    injective. *)

From stdpp Require Import base list decidable.
From Stdlib Require Import Strings.Byte NArith Lia.
From S2P Require Import Prelude Utf8.

Local Open Scope N_scope.

Module Fmt.
Import Utf8.

(** [DEC_DIGITS_LUT]: the two digits of [00] to [99], one pair after the other. *)
Definition DEC_DIGITS_LUT : bytes :=
  bs "00010203040506070809101112131415161718192021222324252627282930313233343536373839404142434445464748495051525354555657585960616263646566676869707172737475767778798081828384858687888990919293949596979899".

(** [ptr::copy_nonoverlapping(lut_ptr.add(d), _, 2)]: the two table bytes at [d]. *)
Definition lut_pair (d : N) : bytes :=
  [nth (N.to_nat d) DEC_DIGITS_LUT Byte.x30; nth (S (N.to_nat d)) DEC_DIGITS_LUT Byte.x30].

(** [while n >= 10000 { ... }]: the buffer [buf] holds the digits written
    so far (the slice [buf[curr..]]).  Each step divides [n] by [10000],
    so [1 + log2 n] steps are enough ([fmt_loop_spec]). *)
Fixpoint fmt_loop (fuel : nat) (n : N) (buf : bytes) : N * bytes :=
  match fuel with
  | O => (n, buf)
  | S fuel' =>
    if 10000 <=? n then
      let rem := n mod 10000 in
      let d1 := N.shiftl (rem / 100) 1 in
      let d2 := N.shiftl (rem mod 100) 1 in
      fmt_loop fuel' (n / 10000) (lut_pair d1 ++ lut_pair d2 ++ buf)
    else (n, buf)
  end.

(** [(n as u8) + b'0']. *)
Definition digit (d : N) : byte := byte_of_N (d + 48).

(** [fmt_u64(n, true, f)] with a [Formatter] without width or precision:
    the loop, then two more digits if [n >= 100], then the last one or two. *)
Definition fmt_u64 (n : N) : bytes :=
  let '(n, buf) := fmt_loop (S (N.to_nat (N.log2 n))) n [] in
  let '(n, buf) :=
    if 100 <=? n then (n / 100, lut_pair (N.shiftl (n mod 100) 1) ++ buf) else (n, buf) in
  if n <? 10 then digit n :: buf
  else lut_pair (N.shiftl n 1) ++ buf.

(** ** Decimal strings *)

Definition is_digit (b : byte) : bool := (48 <=? u8 b) && (u8 b <=? 57).

(** Reading decimal digits back: [s.bytes().fold(0, |a, d| 10 * a + (d - b'0'))]. *)
Definition parse_decimal (s : bytes) : N := foldl (fun a d => 10 * a + (u8 d - 48)) 0 s.

(** The decimal representation: digits only, and no leading zero unless
    the number is [0]. *)
Definition canonical (s : bytes) : Prop :=
  Forall (fun b => is_digit b = true) s /\
  match s with [] => False | [_] => True | d :: _ => d <> digit 0 end.

(** ** Arithmetic of digit strings *)

Lemma parse_foldl (a : N) (s : bytes) :
  foldl (fun a d => 10 * a + (u8 d - 48)) a s = a * 10 ^ N.of_nat (length s) + parse_decimal s.
Proof.
  unfold parse_decimal. revert a. induction s as [|d s IH]; intros a; simpl; [lia|].
  rewrite IH, (IH (10 * 0 + _)). rewrite Nat2N.inj_succ, N.pow_succ_r'. nia.
Qed.

Lemma parse_app (xs ys : bytes) :
  parse_decimal (xs ++ ys) = parse_decimal xs * 10 ^ N.of_nat (length ys) + parse_decimal ys.
Proof. unfold parse_decimal at 1. by rewrite foldl_app, parse_foldl. Qed.

Lemma digit_u8 (d : N) : d < 10 -> u8 (digit d) = 48 + d.
Proof. intros. unfold digit. rewrite u8_byte_of_N_small; lia. Qed.

Lemma is_digit_digit (d : N) : d < 10 -> is_digit (digit d) = true.
Proof.
  intros Hd. unfold is_digit. rewrite digit_u8 by done.
  apply andb_true_iff. split; apply N.leb_le; lia.
Qed.

Lemma parse_digit (d : N) : d < 10 -> parse_decimal [digit d] = d.
Proof. intros Hd. unfold parse_decimal. simpl. rewrite digit_u8; lia. Qed.

Lemma parse_digits_lt (s : bytes) :
  Forall (fun b => is_digit b = true) s -> parse_decimal s < 10 ^ N.of_nat (length s).
Proof.
  induction 1 as [|d s Hd Hs IH]; [cbv; done|].
  change (d :: s) with ([d] ++ s). rewrite parse_app. simpl length.
  rewrite Nat2N.inj_succ, N.pow_succ_r'.
  unfold is_digit in Hd. apply andb_true_iff in Hd as [H1 H2].
  apply N.leb_le in H1, H2. unfold parse_decimal at 1. simpl. nia.
Qed.

(** [DEC_DIGITS_LUT] at [2 * k] holds the two digits of [k], for every [k < 100]. *)
Lemma lut_pair_spec (k : N) :
  k < 100 -> lut_pair (N.shiftl k 1) = [digit (k / 10); digit (k mod 10)].
Proof.
  intros Hk.
  assert (Hall : forallb (fun k => bool_decide (lut_pair (N.shiftl k 1) =
                   [digit (k / 10); digit (k mod 10)])) (map N.of_nat (seq 0 100)) = true)
    by (vm_compute; reflexivity).
  rewrite forallb_forall in Hall.
  refine (bool_decide_eq_true_1 _ (Hall k _)).
  apply in_map_iff. exists (N.to_nat k). split; [lia|]. apply in_seq. lia.
Qed.

Lemma lut_pair_digits (k : N) :
  k < 100 ->
  Forall (fun b => is_digit b = true) (lut_pair (N.shiftl k 1)) /\
  parse_decimal (lut_pair (N.shiftl k 1)) = k /\ length (lut_pair (N.shiftl k 1)) = 2%nat.
Proof.
  intros Hk. rewrite lut_pair_spec by done.
  pose proof (N.mod_lt k 10). pose proof (N.Div0.div_lt_upper_bound k 10 10).
  split_and!; [repeat constructor; apply is_digit_digit; lia | | done].
  change [digit (k / 10); digit (k mod 10)] with ([digit (k / 10)] ++ [digit (k mod 10)]).
  rewrite parse_app, !parse_digit by lia. simpl. pose proof (N.div_mod k 10). lia.
Qed.

Lemma pow10_add (a b : nat) : 10 ^ N.of_nat (a + b) = 10 ^ N.of_nat a * 10 ^ N.of_nat b.
Proof. by rewrite Nat2N.inj_add, N.pow_add_r. Qed.

Lemma log2_div_10000 (n : N) : 10000 <= n -> N.log2 (n / 10000) < N.log2 n.
Proof.
  intros Hn. apply N.le_lt_trans with (N.log2 (N.shiftr n 1)).
  - apply N.log2_le_mono. rewrite N.shiftr_div_pow2. apply N.div_le_compat_l. lia.
  - rewrite N.log2_shiftr. assert (0 < N.log2 n) by (apply N.log2_pos; lia). lia.
Qed.

Abbreviation digits s := (Forall (fun b => is_digit b = true) s).

(** The loop keeps the value of [n] followed by the digits written, writes
    digits only, and stops with [n < 10000] within [1 + log2 n] steps. *)
Lemma fmt_loop_spec (f : nat) (n : N) (buf : bytes) (m : N) (buf' : bytes) :
  digits buf -> fmt_loop f n buf = (m, buf') ->
  digits buf' /\
  m * 10 ^ N.of_nat (length buf') + parse_decimal buf' =
    n * 10 ^ N.of_nat (length buf) + parse_decimal buf /\
  ((N.to_nat (N.log2 n) < f)%nat -> m < 10000) /\
  (0 < n -> 0 < m) /\ (buf' = buf \/ 0 < m).
Proof.
  revert n buf. induction f as [|f IH]; intros n buf Hbuf Hl; cbn [fmt_loop] in Hl.
  - simplify_eq. split_and!; [done | done | lia | done | by left].
  - destruct (N.leb_spec 10000 n) as [Hn|Hn]; [|simplify_eq; split_and!; by (done || lia || left)].
    pose proof (N.mod_lt n 10000 ltac:(lia)) as Hrem.
    destruct (lut_pair_digits (n mod 10000 / 100)) as (D1 & P1 & L1); [div_lia|].
    destruct (lut_pair_digits (n mod 10000 mod 100)) as (D2 & P2 & L2); [div_lia|].
    assert (Hq : 0 < n / 10000) by div_lia.
    edestruct (IH (n / 10000)) as (Hd & Hv & Hf & Hp & _); [ | exact Hl | ].
    { apply Forall_app; split; [done|]. apply Forall_app; split; done. }
    split_and!; [done | | | | right; by apply Hp].
    + rewrite Hv, !parse_app, !length_app, L1, L2, P1, P2, !pow10_add.
      set (P := 10 ^ N.of_nat (length buf)). change (10 ^ N.of_nat 2) with 100.
      pose proof (N.div_mod n 10000 ltac:(lia)).
      pose proof (N.div_mod (n mod 10000) 100 ltac:(lia)). nia.
    + intros Hf'. apply Hf. pose proof (log2_div_10000 n Hn). lia.
    + intros _. by apply Hp.
Qed.

Lemma digit_inj (a b : N) : a < 10 -> b < 10 -> digit a = digit b -> a = b.
Proof. intros Ha Hb H. apply (f_equal u8) in H. rewrite !digit_u8 in H; lia. Qed.

Lemma canonical_cons (d : byte) (s : bytes) :
  is_digit d = true -> digits s -> (s <> [] -> d <> digit 0) -> canonical (d :: s).
Proof.
  intros Hd Hs Hne. split; [by constructor|]. destruct s; [done|]. by apply Hne.
Qed.

Lemma digits_app (xs ys : bytes) : digits xs -> digits ys -> digits (xs ++ ys).
Proof. intros. by apply Forall_app. Qed.

(** [fmt_u64 n] is the decimal representation of [n]: digits only, no
    leading zero, and it reads back to [n]. *)
Theorem fmt_u64_canonical (n : N) : canonical (fmt_u64 n) /\ parse_decimal (fmt_u64 n) = n.
Proof.
  unfold fmt_u64. destruct (fmt_loop _ n []) as [m buf] eqn:E.
  destruct (fmt_loop_spec _ _ _ _ _ (Forall_nil _) E) as (Hd & Hv & Hf & Hp & Hbuf).
  specialize (Hf ltac:(lia)).
  assert (Hn : m * 10 ^ N.of_nat (length buf) + parse_decimal buf = n) by (rewrite Hv; cbn; lia).
  clear Hv.
  destruct (N.leb_spec 100 m) as [H100|H100].
  - destruct (lut_pair_digits (m mod 100)) as (D1 & P1 & L1); [div_lia|].
    pose proof (N.div_mod m 100 ltac:(lia)).
    destruct (N.ltb_spec (m / 100) 10) as [Hq|Hq].
    + split.
      * apply canonical_cons; [apply is_digit_digit; lia | by apply digits_app |].
        intros _ Heq%digit_inj; [div_lia | lia | lia].
      * change (digit (m / 100) :: lut_pair _ ++ buf) with ([digit (m / 100)] ++ lut_pair (N.shiftl (m mod 100) 1) ++ buf).
        rewrite !parse_app, parse_digit, P1, !length_app, L1, !pow10_add by lia.
        rewrite <- Hn. change (10 ^ N.of_nat 2) with 100. nia.
    + destruct (lut_pair_digits (m / 100)) as (D2 & P2 & L2); [div_lia|].
      rewrite (lut_pair_spec (m / 100)) in * by div_lia.
      split.
      * apply canonical_cons; [apply is_digit_digit; div_lia | |].
        { constructor; [apply is_digit_digit; div_lia | by apply digits_app]. }
        intros _ Heq%digit_inj; [div_lia | div_lia | lia].
      * change (digit (m / 100 / 10) :: digit (m / 100 mod 10) :: lut_pair _ ++ buf)
          with ([digit (m / 100 / 10); digit (m / 100 mod 10)] ++ lut_pair (N.shiftl (m mod 100) 1) ++ buf).
        rewrite !parse_app, P1, P2, !length_app, L1, !pow10_add.
        rewrite <- Hn. change (10 ^ N.of_nat 2) with 100. nia.
  - destruct (N.ltb_spec m 10) as [H10|H10].
    + split.
      * apply canonical_cons; [apply is_digit_digit; lia | done |].
        intros Hne Heq%digit_inj; [|lia|lia]. subst m.
        destruct Hbuf as [->|]; [done | lia].
      * change (digit m :: buf) with ([digit m] ++ buf).
        rewrite parse_app, parse_digit by lia. simpl. lia.
    + destruct (lut_pair_digits m) as (D2 & P2 & L2); [lia|].
      rewrite (lut_pair_spec m) in * by lia.
      split.
      * apply canonical_cons; [apply is_digit_digit; div_lia | |].
        { constructor; [apply is_digit_digit; div_lia | done]. }
        intros _ Heq%digit_inj; [div_lia | div_lia | lia].
      * change (digit (m / 10) :: digit (m mod 10) :: buf) with ([digit (m / 10); digit (m mod 10)] ++ buf).
        rewrite parse_app, P2. simpl. lia.
Qed.

(** ** The decimal representation is unique *)

Lemma digit_of (d : byte) : is_digit d = true -> d = digit (u8 d - 48).
Proof.
  unfold is_digit. intros [H1 H2]%andb_true_iff. apply N.leb_le in H1, H2.
  symmetry. apply byte_of_N_eq; lia.
Qed.

Lemma parse_cons (d : byte) (s : bytes) :
  parse_decimal (d :: s) = (u8 d - 48) * 10 ^ N.of_nat (length s) + parse_decimal s.
Proof. change (d :: s) with ([d] ++ s). by rewrite parse_app. Qed.

Lemma digits_inj (s t : bytes) :
  digits s -> digits t -> length s = length t -> parse_decimal s = parse_decimal t -> s = t.
Proof.
  revert t. induction s as [|a s IH]; intros [|b t] Hs Ht Hl Hp; simpl in Hl; try done.
  inversion Hs as [|? ? Ha Hs']; inversion Ht as [|? ? Hb Ht']; subst.
  injection Hl as Hl. rewrite !parse_cons, Hl in Hp.
  pose proof (parse_digits_lt s Hs'). pose proof (parse_digits_lt t Ht'). rewrite Hl in *.
  assert (Hd : u8 a - 48 = u8 b - 48 /\ parse_decimal s = parse_decimal t).
  { set (P := 10 ^ N.of_nat (length t)) in *.
    assert (0 < P) by (apply N.neq_0_lt_0, N.pow_nonzero; lia).
    assert (Hx : u8 a - 48 = u8 b - 48).
    { pose proof Hp as Hq. apply (f_equal (fun x => x / P)) in Hq.
      rewrite !N.div_add_l, !N.div_small in Hq by lia. lia. }
    split; [done|]. rewrite Hx in Hp. lia. }
  destruct Hd as [Hd Hst]. rewrite (digit_of a), (digit_of b), Hd by done.
  f_equal. by apply IH.
Qed.

Lemma canonical_lower (s : bytes) :
  canonical s -> (2 <= length s)%nat -> 10 ^ N.of_nat (length s - 1) <= parse_decimal s.
Proof.
  destruct s as [|d [|d' s]]; intros [Hs Hd] Hl; simpl in Hl; try lia.
  rewrite parse_cons. replace (length (d :: d' :: s) - 1)%nat with (length (d' :: s)) by (simpl; lia).
  inversion Hs as [|? ? Hdig _]; subst.
  assert (1 <= u8 d - 48).
  { destruct (N.eq_dec (u8 d - 48) 0) as [E|E]; [|lia].
    exfalso. apply Hd. rewrite (digit_of d Hdig), E. done. }
  nia.
Qed.

Lemma canonical_length (s t : bytes) :
  canonical s -> canonical t -> parse_decimal s = parse_decimal t -> (length s <= length t)%nat.
Proof.
  intros Hs Ht Hp. destruct (Nat.le_gt_cases (length s) (length t)) as [|Hlt]; [done|].
  exfalso. pose proof (parse_digits_lt t (proj1 Ht)).
  pose proof (canonical_lower s Hs ltac:(destruct t; [by destruct Ht | simpl in *; lia])).
  assert (10 ^ N.of_nat (length t) <= 10 ^ N.of_nat (length s - 1))
    by (apply N.pow_le_mono_r; lia).
  lia.
Qed.

(** [fmt_u64 n] is the one decimal representation of [n]: a byte string
    is what [fmt_u64] prints for [n] exactly when it is made of digits,
    has no leading zero and reads back to [n]. *)
Theorem fmt_u64_iff (n : N) (s : bytes) :
  fmt_u64 n = s <-> canonical s /\ parse_decimal s = n.
Proof.
  destruct (fmt_u64_canonical n) as [Hc Hp].
  split; [by intros <- | intros [Hs Hps]].
  apply digits_inj; [apply Hc | apply Hs | | congruence].
  apply Nat.le_antisymm; apply canonical_length; (done || congruence).
Qed.

End Fmt.

