(* ===== verification/Runner.v ===== *)
(** * The runner: [run] ([src/src/lib.rs], lines 79-100)

    [run] reads the whole input as a [String] (standard input or the file
    of the configuration), calls the four counters and prints one line.
    The operating system is the interface [Os] (a type class): reading
    standard input, reading a file, writing standard output, and the
    alignment of the buffer a read fills, on which the UTF-8 check of
    [read_to_string] ([Utf8Fast]) takes its fast path; [OsLaws]
    states what [run] relies on (reads leave standard output alone,
    writes append).  [run] is written in the state-and-error monad [IO]
    and its theorems are proved against the interface; [World] is a
    concrete instance (a standard input, a file system, an output, an
    alignment) on which the witnesses of the theorems are computed. *)

From stdpp Require Import base list decidable.
From Stdlib Require Import Strings.Byte NArith ZArith Lia.
From S2P Require Import Prelude Utf8 Iterators Counters CharCount Utf8Fast Config Format.

Import Utf8 Iterators Counters Utf8Fast Fmt.

(** ** The operating system *)

(** The kinds of [std::io::Error] the runner can meet. *)
Inductive io_error_kind :=
| NotFound
| PermissionDenied
| IsADirectory
| InvalidData
| Interrupted
| OtherError.

#[export] Instance io_error_kind_eq_dec : EqDecision io_error_kind.
Proof. solve_decision. Defined.

(** What [run] asks of the system: the bytes of standard input read to
    the end, the bytes of a file ([File::open] and a read to the end),
    and writing to standard output; [os_buffer_align] is where the
    allocator puts the buffer a read fills, as the
    [align_offset::<usize>()] of its first byte, which the UTF-8 check
    of the bytes reads. *)
Class Os (W : Type) := {
  os_read_stdin : W -> result bytes io_error_kind * W;
  os_read_file : bytes -> W -> result bytes io_error_kind * W;
  os_write_stdout : bytes -> W -> W;
  os_stdout : W -> bytes;
  os_buffer_align : W -> Z
}.

Class OsLaws (W : Type) `{Os W} := {
  read_stdin_stdout w : os_stdout (os_read_stdin w).2 = os_stdout w;
  read_file_stdout p w : os_stdout (os_read_file p w).2 = os_stdout w;
  write_stdout_appends s w : os_stdout (os_write_stdout s w) = os_stdout w ++ s
}.

(** ** A state-and-error monad for [Result<_, io::Error>] *)

Definition IO (W A : Type) : Type := W -> result A io_error_kind * W.

Definition io_ret {W A} (a : A) : IO W A := fun w => (Ok a, w).

Definition io_bind {W A B} (m : IO W A) (k : A -> IO W B) : IO W B :=
  fun w => let '(r, w') := m w in
           match r with Ok a => k a w' | Err e => (Err e, w') end.

Declare Scope io_scope.
Delimit Scope io_scope with io.
Notation "'let!' x ':=' m 'in' k" := (io_bind m (fun x => k))
  (at level 10, x name, m at level 100, k at level 200) : io_scope.
Local Open Scope io_scope.

Section run.
Context {W : Type} `{Os W}.

(** The UTF-8 check of [read_to_string], [str::from_utf8] on the buffer
    at [align]: invalid bytes give an error of kind [InvalidData]
    ("stream did not contain valid UTF-8"). *)
Definition utf8_or_invalid (align : Z) (r : result bytes io_error_kind) : result bytes io_error_kind :=
  match r with
  | Ok v => match from_utf8_fast align v with Ok s => Ok s | Err _ => Err InvalidData end
  | Err e => Err e
  end.

(** [io::stdin().read_to_string(&mut contents)] on the empty [contents]. *)
Definition stdin_read_to_string : IO W bytes :=
  fun w => let '(r, w') := os_read_stdin w in (utf8_or_invalid (os_buffer_align w) r, w').

(** [fs::read_to_string(path)]. *)
Definition fs_read_to_string (path : bytes) : IO W bytes :=
  fun w => let '(r, w') := os_read_file path w in (utf8_or_invalid (os_buffer_align w) r, w').

(** [println!]: the line and a line feed. *)
Definition println (line : bytes) : IO W unit :=
  fun w => (Ok tt, os_write_stdout (line ++ [LF]) w).

(** [{n}] of a [usize]. *)
Definition fmt (n : nat) : bytes := fmt_u64 (N.of_nat n).

Definition run (config : Config) : IO W unit :=
  let file_name := file_path config in
  let! contents := (if is_stdin config then stdin_read_to_string
                    else fs_read_to_string (file_path config)) in
  let size := get_size_in_bytes contents in
  let num_lines := get_num_lines contents in
  let num_words := get_num_words contents in
  let num_chars := get_num_char contents in
  match command config with
  | Size => println (fmt size ++ bs " " ++ file_name)
  | Line => println (fmt num_lines ++ bs " " ++ file_name)
  | Word => println (fmt num_words ++ bs " " ++ file_name)
  | Char => println (fmt num_chars ++ bs " " ++ file_name)
  | Default =>
    println (fmt num_lines ++ bs "  " ++ fmt num_words ++ bs " " ++ fmt size ++ bs " " ++ file_name)
  end.

End run.

(** ** A concrete system *)

(** Standard input (drained by a successful read), a file system from
    paths to contents or the error of opening them, standard output, and
    the alignment of the buffers the allocator hands out. *)
Record World := {
  w_stdin : result bytes io_error_kind;
  w_files : bytes -> result bytes io_error_kind;
  w_stdout : bytes;
  w_align : Z
}.

#[export] Instance World_os : Os World := {
  os_read_stdin w :=
    (w_stdin w,
     {| w_stdin := match w_stdin w with Ok _ => Ok [] | Err e => Err e end;
        w_files := w_files w; w_stdout := w_stdout w; w_align := w_align w |});
  os_read_file p w := (w_files w p, w);
  os_write_stdout s w :=
    {| w_stdin := w_stdin w; w_files := w_files w; w_stdout := w_stdout w ++ s; w_align := w_align w |};
  os_stdout := w_stdout;
  os_buffer_align := w_align
}.

#[export] Instance World_laws : OsLaws World.
Proof. split; intros; reflexivity. Qed.

(** The file [notes.txt] of the specification's example, a standard
    input of two lines, and word-aligned buffers. *)
Definition notes_world : World := {|
  w_stdin := Ok (bs "lorem" ++ [LF] ++ bs "ipsum dolor");
  w_files := fun p => if decide (p = bs "notes.txt") then Ok (bs "lorem ipsum dolor" ++ [LF])
                      else Err NotFound;
  w_stdout := [];
  w_align := 0
|}.

(** ** What [run] does *)

Section run_spec.
Context {W : Type} `{OsLaws W}.

(** The bytes [run] reads, before the UTF-8 check of [read_to_string]. *)
Definition raw_input (config : Config) (w : W) : result bytes io_error_kind * W :=
  if is_stdin config then os_read_stdin w else os_read_file (file_path config) w.

(** The line the specification's table (section 4.3) prints for a mode,
    from the counts of the input [v] of [nchars] characters: the line
    feeds plus an unterminated last line, the runs of non-whitespace
    bytes, the bytes. *)
Definition report (f : Flag) (v : bytes) (nchars : nat) (label : bytes) : bytes :=
  let lines := count_if (fun b => bool_decide (b = LF)) v + open_tail LF v in
  let words := count_words v in
  let size := length v in
  (match f with
   | Size => fmt size ++ bs " " ++ label
   | Line => fmt lines ++ bs " " ++ label
   | Word => fmt words ++ bs " " ++ label
   | Char => fmt nchars ++ bs " " ++ label
   | Default => fmt lines ++ bs "  " ++ fmt words ++ bs " " ++ fmt size ++ bs " " ++ label
   end) ++ [LF].

Lemma run_unfold (config : Config) (w : W) :
  run config w =
    let '(r, w') := raw_input config w in
    match utf8_or_invalid (os_buffer_align w) r with
    | Ok contents =>
      (let file_name := file_path config in
       let size := get_size_in_bytes contents in
       let num_lines := get_num_lines contents in
       let num_words := get_num_words contents in
       let num_chars := get_num_char contents in
       match command config with
       | Size => println (fmt size ++ bs " " ++ file_name)
       | Line => println (fmt num_lines ++ bs " " ++ file_name)
       | Word => println (fmt num_words ++ bs " " ++ file_name)
       | Char => println (fmt num_chars ++ bs " " ++ file_name)
       | Default =>
         println (fmt num_lines ++ bs "  " ++ fmt num_words ++ bs " " ++ fmt size ++ bs " " ++ file_name)
       end) w'
    | Err e => (Err e, w')
    end.
Proof.
  unfold run, io_bind, raw_input, stdin_read_to_string, fs_read_to_string.
  destruct (is_stdin config);
    [destruct (os_read_stdin w) as [r w'] | destruct (os_read_file (file_path config) w) as [r w']];
    destruct (utf8_or_invalid (os_buffer_align w) r); reflexivity.
Qed.

Lemma utf8_or_invalid_ok (align : Z) (v : bytes) :
  well_formed v -> utf8_or_invalid align (Ok v) = Ok v.
Proof.
  intros (cs & Hcs & ->).
  unfold utf8_or_invalid, from_utf8_fast. rewrite run_utf8_validation_fast_spec.
  unfold run_utf8_validation.
  by rewrite validate_encode_str.
Qed.

Lemma utf8_or_invalid_bad (align : Z) (v : bytes) :
  ~ well_formed v -> utf8_or_invalid align (Ok v) = Err InvalidData.
Proof.
  intros Hv. unfold utf8_or_invalid, from_utf8_fast. rewrite run_utf8_validation_fast_spec.
  unfold run_utf8_validation.
  destruct (validate_from 0 v) as [[]|] eqn:E; [|done].
  exfalso. apply Hv. by apply (validate_sound v 0).
Qed.

Lemma raw_input_stdout (config : Config) (w : W) :
  os_stdout (raw_input config w).2 = os_stdout w.
Proof.
  unfold raw_input. destruct (is_stdin config); [apply read_stdin_stdout | apply read_file_stdout].
Qed.

(** [run] ends in one of two ways, both after the read: it prints one
    line, or it returns an error without writing. *)
Lemma run_outcome (config : Config) (w : W) :
  (exists line, run config w = (Ok tt, os_write_stdout line (raw_input config w).2)) \/
  (exists e, run config w = (Err e, (raw_input config w).2)).
Proof.
  rewrite run_unfold. destruct (raw_input config w) as [r w1]. simpl.
  destruct (utf8_or_invalid _ r); [left; destruct (command config); by eexists | right; by eexists].
Qed.

(** On the encoding of [cs], the line [run] prints is the [report]. *)
Lemma run_ok_report (config : Config) (w w' : W) (cs : list N) :
  Forall (fun c => is_scalar c = true) cs ->
  raw_input config w = (Ok (encode_str cs), w') ->
  run config w =
    (Ok tt, os_write_stdout (report (command config) (encode_str cs) (length cs) (file_path config)) w').
Proof.
  intros Hcs Hin.
  rewrite run_unfold, Hin, utf8_or_invalid_ok by (by exists cs). cbv zeta.
  unfold get_num_char. rewrite count_chars_encode_str. counters_closed_form.
  unfold report, get_size_in_bytes, println. by destruct (command config).
Qed.

Lemma run_valid_ok (config : Config) (w w' : W) (v : bytes) :
  raw_input config w = (Ok v, w') -> well_formed v -> (run config w).1 = Ok tt.
Proof.
  intros Hin Hv. rewrite run_unfold, Hin, utf8_or_invalid_ok by done. by destruct (command config).
Qed.

Lemma run_invalid_err (config : Config) (w w' : W) (v : bytes) :
  raw_input config w = (Ok v, w') -> ~ well_formed v -> (run config w).1 = Err InvalidData.
Proof. intros Hin Hv. by rewrite run_unfold, Hin, utf8_or_invalid_bad. Qed.

(** On any UTF-8 input [run] prints the [report] of it. *)
Lemma run_ok_wf (config : Config) (w w' : W) (v : bytes) :
  raw_input config w = (Ok v, w') -> well_formed v ->
  run config w =
    (Ok tt, os_write_stdout (report (command config) v (get_num_char v) (file_path config)) w').
Proof.
  intros Hin (cs & Hcs & ->). rewrite (run_ok_report config w w' cs Hcs Hin).
  unfold get_num_char. by rewrite count_chars_encode_str.
Qed.

(** [d] is the decimal representation of the count [n]. *)
Definition decimal (d : bytes) (n : nat) : Prop := canonical d /\ parse_decimal d = N.of_nat n.

Lemma fmt_decimal (n : nat) : decimal (fmt n) n.
Proof. apply fmt_u64_canonical. Qed.

(** The count a mode with one count prints. *)
Definition mode_count (f : Flag) (v : bytes) : nat :=
  match f with
  | Size => get_size_in_bytes v
  | Line => get_num_lines v
  | Word => get_num_words v
  | Char | Default => get_num_char v
  end.

End run_spec.

Section run_theorems.
Context {W : Type} `{OsLaws W}.

(** C9: On an input that is the UTF-8 encoding of [cs], [run] prints exactly
    the line of the specification's table for the mode, with the counts
    of the input, after what standard output held. *)
Theorem run_reports (config : Config) (w w' : W) (cs : list N) :
  Forall (fun c => is_scalar c = true) cs ->
  raw_input config w = (Ok (encode_str cs), w') ->
  let line := report (command config) (encode_str cs) (length cs) (file_path config) in
  run config w = (Ok tt, os_write_stdout line w') /\
  os_stdout (run config w).2 = os_stdout w ++ line.
Proof.
  intros Hcs Hin line.
  pose proof (run_ok_report config w w' cs Hcs Hin) as Hrun.
  split; [done|]. rewrite Hrun. simpl. rewrite write_stdout_appends.
  pose proof (raw_input_stdout config w) as Hs. rewrite Hin in Hs. simpl in Hs. by rewrite Hs.
Qed.

(** C17: A failed read is [run]'s error: the error of the system, or
    [InvalidData] when the bytes are not UTF-8. *)
Theorem run_read_errors (config : Config) (w w' : W) :
  (forall e, raw_input config w = (Err e, w') -> run config w = (Err e, w')) /\
  (forall v, raw_input config w = (Ok v, w') -> ~ well_formed v ->
     run config w = (Err InvalidData, w')).
Proof.
  split.
  - intros e Hin. by rewrite run_unfold, Hin.
  - intros v Hin Hv. by rewrite run_unfold, Hin, utf8_or_invalid_bad.
Qed.

(** C11: An error prints nothing: standard output is what it was. *)
Theorem run_error_no_output (config : Config) (w w' : W) (e : io_error_kind) :
  run config w = (Err e, w') -> os_stdout w' = os_stdout w.
Proof.
  intros Hrun. rewrite <- (raw_input_stdout config w).
  destruct (run_outcome config w) as [[line Hr] | [e' Hr]]; rewrite Hr in Hrun; by simplify_eq.
Qed.

(** C4: Reading succeeds, as a [String], exactly on UTF-8 bytes: after a
    successful read [run] succeeds when the bytes are UTF-8 and fails
    with [InvalidData] when they are not. *)
Theorem run_utf8_iff (config : Config) (w w' : W) (v : bytes) :
  raw_input config w = (Ok v, w') ->
  ((run config w).1 = Ok tt <-> well_formed v) /\
  ((run config w).1 = Err InvalidData <-> ~ well_formed v).
Proof.
  intros Hin. destruct (decide (well_formed v)) as [Hv | Hv];
    [rewrite (run_valid_ok config w w' v Hin Hv) | rewrite (run_invalid_err config w w' v Hin Hv)];
    split; split; (done || congruence).
Qed.

(** C15: The printed counts read back: the line [run] prints is made of the
    decimal representations of the counts (digits only, no leading
    zero), separated by the spaces of the format string and followed by
    the label. *)
Theorem run_output_decimal (config : Config) (w w' : W) (v : bytes) :
  raw_input config w = (Ok v, w') -> well_formed v ->
  exists line, run config w = (Ok tt, os_write_stdout (line ++ [LF]) w') /\
  if decide (command config = Default) then
    exists d1 d2 d3, line = d1 ++ bs "  " ++ d2 ++ bs " " ++ d3 ++ bs " " ++ file_path config /\
      decimal d1 (get_num_lines v) /\ decimal d2 (get_num_words v) /\
      decimal d3 (get_size_in_bytes v)
  else exists d, line = d ++ bs " " ++ file_path config /\ decimal d (mode_count (command config) v).
Proof.
  intros Hin Hv. rewrite run_unfold, Hin, utf8_or_invalid_ok by done. unfold println.
  destruct (command config); cbv zeta; eexists; (split; [reflexivity|]); simpl;
    repeat eexists; apply fmt_decimal.
Qed.

End run_theorems.

(** ** Witnesses *)

Lemma run_reports_witness :
  let config := file_config Word (bs "notes.txt") in
  let cs := map u8 (bs "lorem ipsum dolor" ++ [LF]) in
  Forall (fun c => is_scalar c = true) cs /\
  raw_input config notes_world = (Ok (encode_str cs), notes_world) /\
  (let line := report (command config) (encode_str cs) (length cs) (file_path config) in
   run config notes_world = (Ok tt, os_write_stdout line notes_world) /\
   os_stdout (run config notes_world).2 = os_stdout notes_world ++ line).
Proof.
  intros config cs.
  assert (Hcs : Forall (fun c => is_scalar c = true) cs) by (repeat constructor).
  assert (Hin : raw_input config notes_world = (Ok (encode_str cs), notes_world))
    by reflexivity.
  split; [exact Hcs|]. split; [exact Hin|]. exact (run_reports config notes_world notes_world cs Hcs Hin).
Defined.

Lemma run_error_no_output_witness :
  let config := file_config Line (bs "missing.txt") in
  run config notes_world = (Err NotFound, notes_world) /\
  os_stdout notes_world = os_stdout notes_world.
Proof.
  intros config. assert (Hr : run config notes_world = (Err NotFound, notes_world))
    by reflexivity.
  split; [exact Hr | exact (run_error_no_output config notes_world notes_world NotFound Hr)].
Defined.

Lemma run_utf8_iff_witness :
  let config := file_config Word (bs "notes.txt") in
  let v := bs "lorem ipsum dolor" ++ [LF] in
  raw_input config notes_world = (Ok v, notes_world) /\
  (((run config notes_world).1 = Ok tt <-> well_formed v) /\
   ((run config notes_world).1 = Err InvalidData <-> ~ well_formed v)).
Proof.
  intros config v. assert (Hin : raw_input config notes_world = (Ok v, notes_world)) by reflexivity.
  split; [exact Hin | exact (run_utf8_iff config notes_world notes_world v Hin)].
Defined.

Lemma run_output_decimal_witness :
  let config := file_config Default (bs "notes.txt") in
  let v := bs "lorem ipsum dolor" ++ [LF] in
  raw_input config notes_world = (Ok v, notes_world) /\ well_formed v /\
  exists line, run config notes_world = (Ok tt, os_write_stdout (line ++ [LF]) notes_world) /\
  if decide (command config = Default) then
    exists d1 d2 d3, line = d1 ++ bs "  " ++ d2 ++ bs " " ++ d3 ++ bs " " ++ file_path config /\
      decimal d1 (get_num_lines v) /\ decimal d2 (get_num_words v) /\
      decimal d3 (get_size_in_bytes v)
  else exists d, line = d ++ bs " " ++ file_path config /\ decimal d (mode_count (command config) v).
Proof.
  intros config v. assert (Hin : raw_input config notes_world = (Ok v, notes_world)) by reflexivity.
  assert (Hv : well_formed v) by (exists (map u8 v); split; [repeat constructor | reflexivity]).
  split; [exact Hin | split; [exact Hv | exact (run_output_decimal config notes_world notes_world v Hin Hv)]].
Defined.
