(* ===== verification/Main.v ===== *)
(** * The binary's entry point, modelled from the specification

    [main] is not under [src/]: the library of [src/src/lib.rs] is called
    by a binary that the specification describes (sections 6 and 7).  It
    resolves the arguments with [Config::build]; an argument error ends
    the process before any I/O, and an I/O error of [run] ends it before
    any output; either prints a diagnostic on standard error and exits
    with a non-zero status.  Otherwise the one line of [run] is the whole
    output and the status is zero.  Standard error is an extension
    [Stderr] of the [Os] interface of [Runner], with the laws [StderrLaws]
    that keep the two output streams apart.  [Process] adds standard
    error to the concrete [World]. *)

From stdpp Require Import base list decidable.
From Stdlib Require Import Strings.Byte NArith Lia.
From S2P Require Import Prelude Utf8 Iterators Counters Config Runner.

Import Utf8 Iterators Counters.

(** ** Standard error *)

Class Stderr (W : Type) := {
  os_write_stderr : bytes -> W -> W;
  os_stderr : W -> bytes
}.

Class StderrLaws (W : Type) `{Os W} `{Stderr W} := {
  write_stderr_appends s w : os_stderr (os_write_stderr s w) = os_stderr w ++ s;
  write_stderr_stdout s w : os_stdout (os_write_stderr s w) = os_stdout w;
  read_stdin_stderr w : os_stderr (os_read_stdin w).2 = os_stderr w;
  read_file_stderr p w : os_stderr (os_read_file p w).2 = os_stderr w;
  write_stdout_stderr s w : os_stderr (os_write_stdout s w) = os_stderr w
}.

(** ** [main] *)

(** The [Display] text of an [io::Error] of each kind. *)
Definition io_error_message (e : io_error_kind) : bytes :=
  match e with
  | NotFound => bs "No such file or directory"
  | PermissionDenied => bs "Permission denied"
  | IsADirectory => bs "Is a directory"
  | InvalidData => bs "stream did not contain valid UTF-8"
  | Interrupted => bs "operation interrupted"
  | OtherError => bs "other error"
  end.

Definition EXIT_SUCCESS : nat := 0.
Definition EXIT_FAILURE : nat := 1.

Section main.
Context {W : Type} `{Os W} `{Stderr W}.

(** [eprintln!]: the line and a line feed on standard error. *)
Definition eprintln (line : bytes) (w : W) : W := os_write_stderr (line ++ [LF]) w.

(** The exit status and the final state of the process. *)
Definition main (args : list bytes) (w : W) : nat * W :=
  match build args with
  | Err msg => (EXIT_FAILURE, eprintln msg w)
  | Ok config =>
    match run config w with
    | (Ok _, w') => (EXIT_SUCCESS, w')
    | (Err e, w') => (EXIT_FAILURE, eprintln (io_error_message e) w')
    end
  end.

End main.

(** ** A concrete process *)

Record Process := {
  p_world : World;
  p_stderr : bytes
}.

Definition with_world (p : Process) (w : World) : Process :=
  {| p_world := w; p_stderr := p_stderr p |}.

#[export] Instance Process_os : Os Process := {
  os_read_stdin p := let '(r, w) := os_read_stdin (p_world p) in (r, with_world p w);
  os_read_file path p := let '(r, w) := os_read_file path (p_world p) in (r, with_world p w);
  os_write_stdout s p := with_world p (os_write_stdout s (p_world p));
  os_stdout p := os_stdout (p_world p);
  os_buffer_align p := os_buffer_align (p_world p)
}.

#[export] Instance Process_stderr : Stderr Process := {
  os_write_stderr s p := {| p_world := p_world p; p_stderr := p_stderr p ++ s |};
  os_stderr := p_stderr
}.

#[export] Instance Process_laws : OsLaws Process.
Proof. split; intros; reflexivity. Qed.

#[export] Instance Process_stderr_laws : StderrLaws Process.
Proof. split; intros; reflexivity. Qed.

(** The world of the specification's example with an empty standard error. *)
Definition notes_process : Process := {| p_world := notes_world; p_stderr := [] |}.

(** ** What [main] does *)

Section main_spec.
Context {W : Type} `{OsLaws W} `{Stderr W} `{!StderrLaws W}.

Lemma raw_input_stderr (config : Config) (w : W) :
  os_stderr (raw_input config w).2 = os_stderr w.
Proof.
  unfold raw_input. destruct (is_stdin config); [apply read_stdin_stderr | apply read_file_stderr].
Qed.

Lemma eprintln_stdout (msg : bytes) (w : W) : os_stdout (eprintln msg w) = os_stdout w.
Proof. apply write_stderr_stdout. Qed.

Lemma eprintln_stderr (msg : bytes) (w : W) :
  os_stderr (eprintln msg w) = os_stderr w ++ msg ++ [LF].
Proof. apply write_stderr_appends. Qed.

(** On arguments without an empty token, [build] is the outcome the
    specification allows. *)
Lemma build_of_resolves (args : list bytes) (r : result Config bytes) :
  Forall (fun a => a <> []) (drop 1 args) -> resolves args r -> build args = r.
Proof. intros Hne. apply resolves_functional, build_resolves, Hne. Qed.

End main_spec.

Section main_theorems.
Context {W : Type} `{OsLaws W} `{Stderr W} `{!StderrLaws W}.

(** C12: Every invocation ends in exactly one of three ways, each with
    its final state: the arguments resolve and the input read is UTF-8,
    and the process exits with status zero after appending the [report]
    of that input to standard output, and nothing else; [build] fails
    with one of its three messages, and the process exits with status
    one after writing that message on standard error, before any I/O;
    or the read fails or is not UTF-8, and the process exits with
    status one after writing the error's text on standard error, with
    standard output as it was. *)
Theorem main_streams (args : list bytes) (w : W) :
  (exists config v, build args = Ok config /\ (raw_input config w).1 = Ok v /\ well_formed v /\
     main args w = (EXIT_SUCCESS, os_write_stdout (report (command config) v (get_num_char v)
                                                    (file_path config)) (raw_input config w).2)) \/
  (exists msg, build args = Err msg /\ msg ∈ build_messages /\
     main args w = (EXIT_FAILURE, eprintln msg w)) \/
  (exists config e, build args = Ok config /\
     ((raw_input config w).1 = Err e \/
      (e = InvalidData /\ exists v, (raw_input config w).1 = Ok v /\ ~ well_formed v)) /\
     main args w = (EXIT_FAILURE, eprintln (io_error_message e) (raw_input config w).2)).
Proof.
  unfold main. destruct (build args) as [config|msg] eqn:Hb.
  2: { right; left. exists msg. split_and!; [done | by apply (build_err_message args) | done]. }
  destruct (raw_input config w) as [[v|e] w1] eqn:Hin.
  - destruct (decide (well_formed v)) as [Hv|Hv].
    + left. exists config, v. rewrite (run_ok_wf config w w1 v Hin Hv), Hin. by split_and!.
    + right; right. exists config, InvalidData.
      rewrite run_unfold, Hin, utf8_or_invalid_bad by done. simpl. eauto 10.
  - right; right. exists config, e. rewrite run_unfold, Hin. simpl. eauto.
Qed.

(** C10: End to end: when the arguments resolve to [config] and the input
    is the UTF-8 encoding of [cs], the process exits with status zero
    after printing the line of the specification's table. *)
Theorem main_reports (args : list bytes) (config : Config) (w w' : W) (cs : list N) :
  Forall (fun a => a <> []) (drop 1 args) ->
  resolves args (Ok config) ->
  Forall (fun c => is_scalar c = true) cs ->
  raw_input config w = (Ok (encode_str cs), w') ->
  main args w =
    (EXIT_SUCCESS,
     os_write_stdout (report (command config) (encode_str cs) (length cs) (file_path config)) w').
Proof.
  intros Hne Hres Hcs Hin. unfold main.
  by rewrite (build_of_resolves args _ Hne Hres), (run_ok_report config w w' cs Hcs Hin).
Qed.

(** C18: An argument error ends the process before any I/O, with its
    message on standard error; a read error of the resolved input ends it
    after the read, with the error's text. *)
Theorem main_errors (args : list bytes) (w : W) :
  Forall (fun a => a <> []) (drop 1 args) ->
  (forall msg, resolves args (Err msg) -> main args w = (EXIT_FAILURE, eprintln msg w)) /\
  (forall config e w', resolves args (Ok config) -> raw_input config w = (Err e, w') ->
     main args w = (EXIT_FAILURE, eprintln (io_error_message e) w')).
Proof.
  intros Hne. split.
  - intros msg Hres. unfold main. by rewrite (build_of_resolves args _ Hne Hres).
  - intros config e w' Hres Hin. unfold main.
    by rewrite (build_of_resolves args _ Hne Hres), run_unfold, Hin.
Qed.

End main_theorems.

(** ** Witnesses *)

Lemma main_reports_witness :
  let args := [bs "wc"; bs "-w"; bs "notes.txt"] in
  let config := file_config Word (bs "notes.txt") in
  let cs := map u8 (bs "lorem ipsum dolor" ++ [LF]) in
  Forall (fun a => a <> []) (drop 1 args) /\
  resolves args (Ok config) /\
  Forall (fun c => is_scalar c = true) cs /\
  raw_input config notes_process = (Ok (encode_str cs), notes_process) /\
  main args notes_process =
    (EXIT_SUCCESS,
     os_write_stdout (report (command config) (encode_str cs) (length cs) (file_path config))
       notes_process).
Proof.
  intros args config cs.
  assert (Hne : Forall (fun a => a <> []) (drop 1 args)) by (repeat constructor; discriminate).
  assert (Hres : resolves args (Ok config)) by (apply resolves_flag_path; reflexivity).
  assert (Hcs : Forall (fun c => is_scalar c = true) cs) by (repeat constructor).
  assert (Hin : raw_input config notes_process = (Ok (encode_str cs), notes_process))
    by reflexivity.
  split_and!; [exact Hne | exact Hres | exact Hcs | exact Hin |].
  exact (main_reports args config notes_process notes_process cs Hne Hres Hcs Hin).
Defined.

Lemma main_errors_witness :
  let args := [bs "wc"; bs "missing.txt"] in
  let config := file_config Default (bs "missing.txt") in
  Forall (fun a => a <> []) (drop 1 args) /\
  resolves args (Ok config) /\
  raw_input config notes_process = (Err NotFound, notes_process) /\
  main args notes_process = (EXIT_FAILURE, eprintln (io_error_message NotFound) notes_process).
Proof.
  intros args config.
  assert (Hne : Forall (fun a => a <> []) (drop 1 args)) by (repeat constructor; discriminate).
  assert (Hres : resolves args (Ok config)) by (apply resolves_path; reflexivity).
  assert (Hin : raw_input config notes_process = (Err NotFound, notes_process)) by reflexivity.
  split_and!; [exact Hne | exact Hres | exact Hin |].
  exact (proj2 (main_errors args notes_process Hne) config NotFound notes_process Hres Hin).
Defined.

Lemma main_streams_witness :
  let args := [bs "wc"; bs "-w"; bs "notes.txt"] in
  let config := file_config Word (bs "notes.txt") in
  let v := bs "lorem ipsum dolor" ++ [LF] in
  build args = Ok config /\ (raw_input config notes_process).1 = Ok v /\ well_formed v /\
  ((exists config v, build args = Ok config /\ (raw_input config notes_process).1 = Ok v /\ well_formed v /\
     main args notes_process =
       (EXIT_SUCCESS, os_write_stdout (report (command config) v (get_num_char v) (file_path config))
                        (raw_input config notes_process).2)) \/
   (exists msg, build args = Err msg /\ msg ∈ build_messages /\
     main args notes_process = (EXIT_FAILURE, eprintln msg notes_process)) \/
   (exists config e, build args = Ok config /\
     ((raw_input config notes_process).1 = Err e \/
      (e = InvalidData /\ exists v, (raw_input config notes_process).1 = Ok v /\ ~ well_formed v)) /\
     main args notes_process = (EXIT_FAILURE, eprintln (io_error_message e) (raw_input config notes_process).2))).
Proof.
  intros args config v.
  assert (Hv : well_formed v) by (exists (map u8 v); split; [repeat constructor | reflexivity]).
  split_and!; [reflexivity | reflexivity | exact Hv | exact (main_streams args notes_process)].
Defined.
