(* ===== verification/Tests.v ===== *)
(** * The unit tests of [src/src/lib.rs] (lines 118-151)

    Each [#[test]] function is a [Definition] of type [bool]: its
    [assert_eq!(expected, actual)] is [assert_eq expected actual], which
    is [true] when the test passes and [false] when the assertion would
    panic.  The string literals are written out byte by byte where the
    source has an escape or a line break: the [contents] of
    [test_get_num_lines] starts with the tab escape [\t] and keeps the
    eight spaces of indentation of its second and third source lines. *)

From stdpp Require Import base list decidable.
From Stdlib Require Import Strings.Byte NArith Lia.
From S2P Require Import Prelude Utf8 Iterators Counters.

Module Tests.
Import Iterators Counters.

(** [assert_eq!] on two [usize]: it passes when they are equal. *)
Definition assert_eq (expected actual : nat) : bool := Nat.eqb expected actual.

Definition test_get_size_empty : bool :=
  let contents := bs "" in
  assert_eq 0 (get_size_in_bytes contents).

Definition test_get_size : bool :=
  let contents := bs "test" in
  assert_eq 4 (get_size_in_bytes contents).

(** ["\test\n        lorem\n        ipsum"]: a tab, [est], and two more
    lines indented by eight spaces. *)
Definition test_get_num_lines : bool :=
  let contents := [Byte.x09] ++ bs "est" ++ [LF] ++ bs "        lorem" ++ [LF] ++ bs "        ipsum" in
  assert_eq 3 (get_num_lines contents).

Definition test_get_num_words : bool :=
  let contents := bs "lorem ipsum dolor" in
  assert_eq 3 (get_num_words contents).

End Tests.
